(** * Camera and frame-rate meter of the OpenGL grid demo (camera.go, main.go)

    The Go program does all of its arithmetic in [float32] and [float64].
    The code is embedded once, over an interface [Float] of the arithmetic
    it uses, and read at two instances:

    - [IEEE]: binary32/binary64 values as [spec_float], every operation
      rounding to nearest-even exactly as the hardware does, NaN and the
      infinities included.  This is the program as it runs (gc on amd64,
      which never fuses a multiplication with an addition).
    - [Ideal]: the same code over the real numbers, where rounding is the
      identity.  Statements that the specification makes "up to floating
      tolerance" are statements about this reading.

    [math.Cos] and [math.Sin] live in Go's runtime library, not in the
    repository; they are the interface [Libm]. *)

From Stdlib Require Import ZArith List Bool Lia Floats.SpecFloat.
From Stdlib Require Import Reals Lra Psatz.
Import ListNotations.

Set Implicit Arguments.

(** ** The arithmetic the program uses *)

Class Float (F : Type) := {
  (* float32 arithmetic *)
  f32_add : F -> F -> F;
  f32_sub : F -> F -> F;
  f32_mul : F -> F -> F;
  f32_div : F -> F -> F;
  (* float64 arithmetic *)
  f64_add : F -> F -> F;
  f64_sub : F -> F -> F;
  f64_mul : F -> F -> F;
  f64_div : F -> F -> F;
  f64_sqrt : F -> F;
  (* conversions: float32(x), float64(x), float64(n) *)
  f32_of_f64 : F -> F;
  f64_of_f32 : F -> F;
  f64_of_int : Z -> F;
  (* comparisons: Go's >, <, >=, == *)
  f_gt : F -> F -> bool;
  f_lt : F -> F -> bool;
  f_ge : F -> F -> bool;
  f_eq : F -> F -> bool;
  (* the constant n/d as a float32 and as a float64 *)
  lit32 : Z -> positive -> F;
  lit64 : Z -> positive -> F;
  (* float32(math.Pi) *)
  pi32 : F
}.

Class Libm (F : Type) := {
  cos64 : F -> F;
  sin64 : F -> F
}.

(** Go's [int] on a 64-bit platform: [n++] wraps around. *)
Definition wrap_int (z : Z) : Z := ((z + 2 ^ 63) mod 2 ^ 64 - 2 ^ 63)%Z.
Definition int_incr (n : Z) : Z := wrap_int (n + 1).

(** ** main.go: FPSCounter *)

Section FPSCounterCode.
Context {F : Type} {FL : Float F}.

Record FPSCounter := mkFPS {
  lastUpdate : F;
  frameCount : Z;
  fps : F
}.

(** [now] is the value [glfw.GetTime()] returns at the call. *)
Definition NewFPSCounter (now : F) : FPSCounter :=
  {| lastUpdate := now; frameCount := 0; fps := lit64 0 1 |}.

Definition Update (now : F) (fc : FPSCounter) : F * FPSCounter :=
  let currentTime := now in
  let fc := {| lastUpdate := lastUpdate fc;
               frameCount := int_incr (frameCount fc);
               fps := fps fc |} in
  let fc :=
    if f_ge (f64_sub currentTime (lastUpdate fc)) (lit64 1 4) then
      let fps' := f64_div (f64_of_int (frameCount fc))
                          (f64_sub currentTime (lastUpdate fc)) in
      let smoothed :=
        if f_eq (fps fc) (lit64 0 1) then fps'
        else f64_add (f64_mul (fps fc) (lit64 9 10)) (f64_mul fps' (lit64 1 10)) in
      {| lastUpdate := currentTime; frameCount := 0; fps := smoothed |}
    else fc in
  (fps fc, fc).

(** The render loop: one [Update] per frame; the values returned, in order,
    and the final counter. *)
Fixpoint run_updates (times : list F) (fc : FPSCounter) : list F * FPSCounter :=
  match times with
  | [] => ([], fc)
  | t :: rest =>
      let '(v, fc') := Update t fc in
      let '(vs, fc'') := run_updates rest fc' in
      (v :: vs, fc'')
  end.
(** Whether the call at time [t] closes the window, and whether it then takes
    the branch that stores the first reading. *)
Definition closes (t : F) (fc : FPSCounter) : bool :=
  f_ge (f64_sub t (lastUpdate fc)) (lit64 1 4).
Definition seeds (t : F) (fc : FPSCounter) : bool :=
  closes t fc && f_eq (fps fc) (lit64 0 1).

(** The run of the counter: for each call, whether it closed the window and
    the counter it left. *)
Fixpoint history (times : list F) (fc : FPSCounter) : list (bool * FPSCounter) :=
  match times with
  | [] => []
  | t :: rest => (closes t fc, snd (Update t fc)) :: history rest (snd (Update t fc))
  end.

(** How many calls of the run took the first-reading branch. *)
Fixpoint seedings (times : list F) (fc : FPSCounter) : nat :=
  match times with
  | [] => 0%nat
  | t :: rest => ((if seeds t fc then 1 else 0) + seedings rest (snd (Update t fc)))%nat
  end.
End FPSCounterCode.

(** ** mgl32.Vec3 and mgl32.DegToRad

    The vector type of go-gl/mathgl, with the methods the camera calls.
    Every operation is a [float32] operation; [Len] takes its square root
    in [float64]. *)

Section Vec3Code.
Context {F : Type} {FL : Float F}.

Record Vec3 := mkVec3 { vx : F; vy : F; vz : F }.

Definition Add (a b : Vec3) : Vec3 :=
  mkVec3 (f32_add (vx a) (vx b)) (f32_add (vy a) (vy b)) (f32_add (vz a) (vz b)).

Definition Sub (a b : Vec3) : Vec3 :=
  mkVec3 (f32_sub (vx a) (vx b)) (f32_sub (vy a) (vy b)) (f32_sub (vz a) (vz b)).

Definition Mul (a : Vec3) (c : F) : Vec3 :=
  mkVec3 (f32_mul (vx a) c) (f32_mul (vy a) c) (f32_mul (vz a) c).

Definition Cross (a b : Vec3) : Vec3 :=
  mkVec3 (f32_sub (f32_mul (vy a) (vz b)) (f32_mul (vz a) (vy b)))
         (f32_sub (f32_mul (vz a) (vx b)) (f32_mul (vx a) (vz b)))
         (f32_sub (f32_mul (vx a) (vy b)) (f32_mul (vy a) (vx b))).

Definition Dot (a b : Vec3) : F :=
  f32_add (f32_add (f32_mul (vx a) (vx b)) (f32_mul (vy a) (vy b)))
          (f32_mul (vz a) (vz b)).

Definition Len (a : Vec3) : F :=
  f32_of_f64 (f64_sqrt (f64_of_f32 (Dot a a))).

Definition Normalize (a : Vec3) : Vec3 :=
  let l := f32_div (lit32 1 1) (Len a) in
  mkVec3 (f32_mul (vx a) l) (f32_mul (vy a) l) (f32_mul (vz a) l).

Definition DegToRad (angle : F) : F :=
  f32_div (f32_mul angle pi32) (lit32 180 1).
End Vec3Code.

(** ** camera.go, and the cursor callback and movement block of main.go *)

Inductive Key := KeyW | KeyS | KeyA | KeyD.

(** [window.GetKey(k) == glfw.Press], as the window answers it. *)
Definition Window := Key -> bool.

Section CameraCode.
Context {F : Type} {FL : Float F} {LM : Libm F}.

Record Camera := mkCamera {
  Position : Vec3 (F:=F);
  Front : Vec3 (F:=F);
  Up : Vec3 (F:=F);
  Right : Vec3 (F:=F);
  WorldUp : Vec3 (F:=F);
  Yaw : F;
  Pitch : F;
  MovementSpeed : F;
  MouseSens : F;
  firstMouse : bool;
  lastX : F;
  lastY : F
}.

(** Field assignments. *)
Definition set_Position (c : Camera) (p : Vec3) : Camera :=
  mkCamera p (Front c) (Up c) (Right c) (WorldUp c) (Yaw c) (Pitch c)
           (MovementSpeed c) (MouseSens c) (firstMouse c) (lastX c) (lastY c).
Definition set_Front (c : Camera) (v : Vec3) : Camera :=
  mkCamera (Position c) v (Up c) (Right c) (WorldUp c) (Yaw c) (Pitch c)
           (MovementSpeed c) (MouseSens c) (firstMouse c) (lastX c) (lastY c).
Definition set_Up (c : Camera) (v : Vec3) : Camera :=
  mkCamera (Position c) (Front c) v (Right c) (WorldUp c) (Yaw c) (Pitch c)
           (MovementSpeed c) (MouseSens c) (firstMouse c) (lastX c) (lastY c).
Definition set_Right (c : Camera) (v : Vec3) : Camera :=
  mkCamera (Position c) (Front c) (Up c) v (WorldUp c) (Yaw c) (Pitch c)
           (MovementSpeed c) (MouseSens c) (firstMouse c) (lastX c) (lastY c).
Definition set_Yaw (c : Camera) (a : F) : Camera :=
  mkCamera (Position c) (Front c) (Up c) (Right c) (WorldUp c) a (Pitch c)
           (MovementSpeed c) (MouseSens c) (firstMouse c) (lastX c) (lastY c).
Definition set_Pitch (c : Camera) (a : F) : Camera :=
  mkCamera (Position c) (Front c) (Up c) (Right c) (WorldUp c) (Yaw c) a
           (MovementSpeed c) (MouseSens c) (firstMouse c) (lastX c) (lastY c).
Definition set_firstMouse (c : Camera) (b : bool) : Camera :=
  mkCamera (Position c) (Front c) (Up c) (Right c) (WorldUp c) (Yaw c) (Pitch c)
           (MovementSpeed c) (MouseSens c) b (lastX c) (lastY c).
Definition set_lastX (c : Camera) (x : F) : Camera :=
  mkCamera (Position c) (Front c) (Up c) (Right c) (WorldUp c) (Yaw c) (Pitch c)
           (MovementSpeed c) (MouseSens c) (firstMouse c) x (lastY c).
Definition set_lastY (c : Camera) (y : F) : Camera :=
  mkCamera (Position c) (Front c) (Up c) (Right c) (WorldUp c) (Yaw c) (Pitch c)
           (MovementSpeed c) (MouseSens c) (firstMouse c) (lastX c) y.

(** The vector built from yaw and pitch, before it is normalized. *)
Definition direction (yaw pitch : F) : Vec3 :=
  mkVec3
    (f32_of_f64 (f64_mul (cos64 (f64_of_f32 (DegToRad yaw)))
                         (cos64 (f64_of_f32 (DegToRad pitch)))))
    (f32_of_f64 (sin64 (f64_of_f32 (DegToRad pitch))))
    (f32_of_f64 (f64_mul (sin64 (f64_of_f32 (DegToRad yaw)))
                         (cos64 (f64_of_f32 (DegToRad pitch))))).

Definition updateCameraVectors (c : Camera) : Camera :=
  let front := direction (Yaw c) (Pitch c) in
  let c := set_Front c (Normalize front) in
  let c := set_Right c (Normalize (Cross (Front c) (WorldUp c))) in
  let c := set_Up c (Normalize (Cross (Right c) (Front c))) in
  c.

(** The composite literal of [NewCamera]: fields it does not name are zero. *)
Definition zero32 : F := lit32 0 1.
Definition zero64 : F := lit64 0 1.
Definition zeroVec3 : Vec3 := mkVec3 zero32 zero32 zero32.

Definition NewCamera : Camera :=
  let cam :=
    {| Position := mkVec3 (lit32 0 1) (lit32 0 1) (lit32 3 1);
       Front := mkVec3 (lit32 0 1) (lit32 0 1) (lit32 (-1) 1);
       Up := zeroVec3;
       Right := zeroVec3;
       WorldUp := mkVec3 (lit32 0 1) (lit32 1 1) (lit32 0 1);
       Yaw := lit32 (-90) 1;
       Pitch := lit32 0 1;
       MovementSpeed := lit32 5 2;
       MouseSens := lit32 1 10;
       firstMouse := true;
       lastX := zero64;
       lastY := zero64 |} in
  updateCameraVectors cam.

(** camera.go, [HandleMouseMovement]: the first sample returns early. *)
Definition HandleMouseMovement (c : Camera) (xpos ypos : F) : Camera :=
  if firstMouse c then
    let c := set_lastX c xpos in
    let c := set_lastY c ypos in
    let c := set_firstMouse c false in
    c
  else
    let xoffset := f64_sub xpos (lastX c) in
    let yoffset := f64_sub (lastY c) ypos in
    let c := set_lastX c xpos in
    let c := set_lastY c ypos in
    let xoffset := f64_mul xoffset (f64_of_f32 (MouseSens c)) in
    let yoffset := f64_mul yoffset (f64_of_f32 (MouseSens c)) in
    let c := set_Yaw c (f32_add (Yaw c) (f32_of_f64 xoffset)) in
    let c := set_Pitch c (f32_add (Pitch c) (f32_of_f64 yoffset)) in
    let c := if f_gt (Pitch c) (lit32 89 1) then set_Pitch c (lit32 89 1) else c in
    let c := if f_lt (Pitch c) (lit32 (-89) 1) then set_Pitch c (lit32 (-89) 1) else c in
    updateCameraVectors c.

(** main.go, the closure given to [SetCursorPosCallback]: the first sample
    sets the baseline and falls through. *)
Definition cursorCallback (camera : Camera) (xpos ypos : F) : Camera :=
  let camera :=
    if firstMouse camera then
      let camera := set_lastX camera xpos in
      let camera := set_lastY camera ypos in
      set_firstMouse camera false
    else camera in
  let xoffset := f64_sub xpos (lastX camera) in
  let yoffset := f64_sub (lastY camera) ypos in
  let camera := set_lastX camera xpos in
  let camera := set_lastY camera ypos in
  let xoffset := f64_mul xoffset (f64_of_f32 (MouseSens camera)) in
  let yoffset := f64_mul yoffset (f64_of_f32 (MouseSens camera)) in
  let camera := set_Yaw camera (f32_add (Yaw camera) (f32_of_f64 xoffset)) in
  let camera := set_Pitch camera (f32_add (Pitch camera) (f32_of_f64 yoffset)) in
  let camera := if f_gt (Pitch camera) (lit32 89 1)
                then set_Pitch camera (lit32 89 1) else camera in
  let camera := if f_lt (Pitch camera) (lit32 (-89) 1)
                then set_Pitch camera (lit32 (-89) 1) else camera in
  updateCameraVectors camera.

(** camera.go, [HandleKeyboard]. *)
Definition HandleKeyboard (c : Camera) (window : Window) (deltaTime : F) : Camera :=
  let cameraSpeed := f32_mul (f32_of_f64 deltaTime) (MovementSpeed c) in
  let c := if window KeyW
           then set_Position c (Add (Position c) (Mul (Front c) cameraSpeed)) else c in
  let c := if window KeyS
           then set_Position c (Sub (Position c) (Mul (Front c) cameraSpeed)) else c in
  let c := if window KeyA
           then set_Position c (Sub (Position c) (Mul (Right c) cameraSpeed)) else c in
  let c := if window KeyD
           then set_Position c (Add (Position c) (Mul (Right c) cameraSpeed)) else c in
  c.

(** main.go, lines 297-309: the render loop moves the camera itself. *)
Definition mainMovement (camera : Camera) (window : Window) (deltaTime : F) : Camera :=
  let cameraSpeed := f32_mul (f32_of_f64 deltaTime) (MovementSpeed camera) in
  let camera := if window KeyW
    then set_Position camera (Add (Position camera) (Mul (Front camera) cameraSpeed))
    else camera in
  let camera := if window KeyS
    then set_Position camera (Sub (Position camera) (Mul (Front camera) cameraSpeed))
    else camera in
  let camera := if window KeyA
    then set_Position camera (Sub (Position camera) (Mul (Right camera) cameraSpeed))
    else camera in
  let camera := if window KeyD
    then set_Position camera (Add (Position camera) (Mul (Right camera) cameraSpeed))
    else camera in
  camera.

(** A stream of cursor samples delivered to a handler. *)
Definition feed (handler : Camera -> F -> F -> Camera)
           (samples : list (F * F)) (c : Camera) : Camera :=
  fold_left (fun c s => handler c (fst s) (snd s)) samples c.

(** The camera after each sample, in order. *)
Fixpoint trace (handler : Camera -> F -> F -> Camera)
         (samples : list (F * F)) (c : Camera) : list Camera :=
  match samples with
  | [] => []
  | s :: rest =>
      let c' := handler c (fst s) (snd s) in
      c' :: trace handler rest c'
  end.

(** *** Names for what the handlers compute

    The yaw and pitch that the tracking statements leave, the camera either
    handler returns once a baseline exists, and the three vectors that
    [updateCameraVectors] stores. *)
Definition turned_yaw (c : Camera) (xpos : F) : F :=
  f32_add (Yaw c)
    (f32_of_f64 (f64_mul (f64_sub xpos (lastX c)) (f64_of_f32 (MouseSens c)))).

Definition turned_pitch (c : Camera) (ypos : F) : F :=
  let p := f32_add (Pitch c)
             (f32_of_f64 (f64_mul (f64_sub (lastY c) ypos) (f64_of_f32 (MouseSens c)))) in
  let p := if f_gt p (lit32 89 1) then lit32 89 1 else p in
  if f_lt p (lit32 (-89) 1) then lit32 (-89) 1 else p.

Definition tracked (c : Camera) (xpos ypos : F) : Camera :=
  updateCameraVectors
    (mkCamera (Position c) (Front c) (Up c) (Right c) (WorldUp c)
       (turned_yaw c xpos) (turned_pitch c ypos)
       (MovementSpeed c) (MouseSens c) (firstMouse c) xpos ypos).

Definition basis_front (yaw pitch : F) : Vec3 := Normalize (direction yaw pitch).
Definition basis_right (yaw pitch : F) (worldUp : Vec3) : Vec3 :=
  Normalize (Cross (basis_front yaw pitch) worldUp).
Definition basis_up (yaw pitch : F) (worldUp : Vec3) : Vec3 :=
  Normalize (Cross (basis_right yaw pitch worldUp) (basis_front yaw pitch)).

(** The position after the four key tests, written as one expression. *)
Definition moved (c : Camera) (window : Window) (deltaTime : F) : Vec3 :=
  let speed := f32_mul (f32_of_f64 deltaTime) (MovementSpeed c) in
  let p := Position c in
  let p := if window KeyW then Add p (Mul (Front c) speed) else p in
  let p := if window KeyS then Sub p (Mul (Front c) speed) else p in
  let p := if window KeyA then Sub p (Mul (Right c) speed) else p in
  if window KeyD then Add p (Mul (Right c) speed) else p.
End CameraCode.

(** ** main.go: the render loop

    One iteration reads the clock, derives [deltaTime], tests the escape key,
    updates the frame-rate counter (which reads the clock again), moves the
    camera, draws, and polls events, which is when GLFW calls the cursor
    callback for the samples that arrived and raises the close flag if the
    window was asked to close.  The GL calls change no program state and are
    left out; the window title is kept as the number it shows. *)

Section MainLoopCode.
Context {F : Type} {FL : Float F} {LM : Libm F}.

Record MainState := mkMainState {
  camera : Camera (F:=F);
  fpsCounter : FPSCounter (F:=F);
  deltaTime : F;
  lastFrame : F;
  shouldClose : bool;            (* window.ShouldClose() *)
  shownFps : F                   (* the number in the window title *)
}.

(** What one iteration receives from outside. *)
Record FrameInput := mkFrameInput {
  now_frame : F;                 (* glfw.GetTime() at the top of the loop *)
  now_update : F;                (* glfw.GetTime() inside fpsCounter.Update *)
  escape : bool;                 (* window.GetKey(glfw.KeyEscape) == glfw.Press *)
  keys : Window;
  cursor : list (F * F);         (* the samples glfw.PollEvents delivers *)
  closeRequested : bool          (* a close request glfw.PollEvents delivers *)
}.

(** The state when the loop is entered; [now] is the clock as
    [NewFPSCounter] reads it. *)
Definition mainInit (now : F) : MainState :=
  {| camera := set_Position NewCamera (mkVec3 (lit32 0 1) (lit32 0 1) (lit32 15 1));
     fpsCounter := NewFPSCounter now;
     deltaTime := lit64 0 1;
     lastFrame := lit64 0 1;
     shouldClose := false;
     shownFps := lit64 0 1 |}.

Definition mainIteration (st : MainState) (i : FrameInput) : MainState :=
  let currentFrame := now_frame i in
  let deltaTime := f64_sub currentFrame (lastFrame st) in
  let lastFrame := currentFrame in
  let shouldClose := if escape i then true else shouldClose st in
  let fps := fst (Update (now_update i) (fpsCounter st)) in
  let fpsCounter := snd (Update (now_update i) (fpsCounter st)) in
  let camera := mainMovement (camera st) (keys i) deltaTime in
  let camera := feed cursorCallback (cursor i) camera in
  let shouldClose := if closeRequested i then true else shouldClose in
  {| camera := camera; fpsCounter := fpsCounter; deltaTime := deltaTime;
     lastFrame := lastFrame; shouldClose := shouldClose; shownFps := fps |}.

(** [for !window.ShouldClose() { ... }] over the frames that would arrive. *)
Fixpoint mainLoop (inputs : list FrameInput) (st : MainState) : MainState :=
  match inputs with
  | [] => st
  | i :: rest => if shouldClose st then st else mainLoop rest (mainIteration st i)
  end.

(** The state after each iteration that runs, in order. *)
Fixpoint mainTrace (inputs : list FrameInput) (st : MainState) : list MainState :=
  match inputs with
  | [] => []
  | i :: rest =>
      if shouldClose st then []
      else mainIteration st i :: mainTrace rest (mainIteration st i)
  end.

(** The quads of one frame, in drawing order: for each row and column the
    pair [(xPos, yPos)] given to [mgl32.Translate3D].  [float32(col)] is the
    float32 nearest to the integer, [lit32 col 1]. *)
Definition gridCells : list (F * F) :=
  flat_map (fun row =>
    map (fun col =>
           let xPos := f32_sub (lit32 (Z.of_nat col) 1) (lit32 9 2) in
           let yPos := f32_sub (lit32 (Z.of_nat row) 1) (lit32 9 2) in
           (xPos, yPos))
        (seq 0 10))
    (seq 0 10).

(** The derived vectors agree with yaw, pitch and the world-up vector. *)
Definition basis_current (c : Camera) : Prop :=
  Front c = basis_front (Yaw c) (Pitch c) /\
  Right c = basis_right (Yaw c) (Pitch c) (WorldUp c) /\
  Up c = basis_up (Yaw c) (Pitch c) (WorldUp c).

(** The frame ends the loop: escape is down, or a close request arrives. *)
Definition closing (i : FrameInput) : bool := escape i || closeRequested i.
End MainLoopCode.

(** ** The IEEE 754 instance *)

Module IEEE.

Definition gtb (x y : spec_float) : bool :=
  match SFcompare x y with Some Gt => true | _ => false end.
Definition geb (x y : spec_float) : bool :=
  match SFcompare x y with Some (Gt | Eq) => true | _ => false end.

(** [float32(x)] and [float64(x)]: round to the target format. *)
Definition round_to (prec emax : Z) (x : spec_float) : spec_float :=
  match x with
  | S754_finite s m e => binary_round prec emax s m e
  | _ => x
  end.

Definition of_Z (prec emax : Z) (n : Z) : spec_float :=
  binary_normalize prec emax n 0 false.

(** A decimal or integer constant [n/d] of the source, rounded once. *)
Definition literal (prec emax : Z) (n : Z) (d : positive) : spec_float :=
  SFdiv prec emax (of_Z prec emax n) (of_Z prec emax (Zpos d)).

(** [float32(math.Pi)], bit pattern 0x40490FDB. *)
Definition pi_f32 : spec_float := S754_finite false 13176795 (-22).

#[export] Instance ieee : Float spec_float := {|
  f32_add := SFadd 24 128;
  f32_sub := SFsub 24 128;
  f32_mul := SFmul 24 128;
  f32_div := SFdiv 24 128;
  f64_add := SFadd 53 1024;
  f64_sub := SFsub 53 1024;
  f64_mul := SFmul 53 1024;
  f64_div := SFdiv 53 1024;
  f64_sqrt := SFsqrt 53 1024;
  f32_of_f64 := round_to 24 128;
  f64_of_f32 := round_to 53 1024;
  f64_of_int := of_Z 53 1024;
  f_gt := gtb;
  f_lt := SFltb;
  f_ge := geb;
  f_eq := SFeqb;
  lit32 := literal 24 128;
  lit64 := literal 53 1024;
  pi32 := pi_f32
|}.


(** *** Classes of values *)
Definition is_nan (x : spec_float) : bool :=
  match x with S754_nan => true | _ => false end.

(** A number: neither NaN nor an infinity. *)
Definition finite (x : spec_float) : bool :=
  match x with S754_zero _ | S754_finite _ _ _ => true | _ => false end.

(** [-89 <= p <= 89], as float32 comparisons. *)
Definition pitch_in_range (p : spec_float) : bool :=
  geb p (literal 24 128 (-89) 1) && SFleb p (literal 24 128 89 1).

(** The two clamping tests of the cursor handlers. *)
Definition clamp (p : spec_float) : spec_float :=
  let p := if gtb p (literal 24 128 89 1) then literal 24 128 89 1 else p in
  if SFltb p (literal 24 128 (-89) 1) then literal 24 128 (-89) 1 else p.

(** *** A libm to run examples with

    Truncated Maclaurin series, evaluated in binary64.  It is not Go's
    implementation; it serves to execute the camera on concrete inputs.
    Every theorem about the IEEE camera holds for all [Libm] instances. *)
Definition horner (coeffs : list spec_float) (x : spec_float) : spec_float :=
  fold_right (fun c acc => SFadd 53 1024 c (SFmul 53 1024 x acc))
             (S754_zero false) coeffs.

Fixpoint alternating (sign : Z) (k : nat) (n : nat) (fact : positive)
  : list spec_float :=
  match n with
  | O => []
  | S n' =>
      literal 53 1024 sign fact ::
      alternating (- sign) (k + 2) n'
        (fact * Pos.of_nat (k + 1) * Pos.of_nat (k + 2))
  end.

Definition series_cos (x : spec_float) : spec_float :=
  horner (alternating 1 0 16 1) (SFmul 53 1024 x x).
Definition series_sin (x : spec_float) : spec_float :=
  SFmul 53 1024 x (horner (alternating 1 1 16 1) (SFmul 53 1024 x x)).

Definition series_libm : Libm spec_float :=
  {| cos64 := series_cos; sin64 := series_sin |}.

Definition nan : spec_float := S754_nan.
(** *** Vocabulary of the rounding lemmas *)

(** A shift record read as a number: four times the mantissa, plus the round
    and sticky bits. *)
Definition weight (r : shr_record) : Z :=
  (4 * shr_m r + (if shr_r r then 2 else 0) + (if shr_s r then 1 else 0))%Z.

(** [r] is a finite number of sign [sx], in the format's range and with its
    leading bit at position [d] or above, or the infinity of that sign. *)
Definition rounds_to (prec emax : Z) (sx : bool) (d : Z) (r : spec_float) : Prop :=
  (exists m e, r = S754_finite sx m e /\
               (emin prec emax <= e <= emax - prec)%Z /\
               (Zpos (digits2_pos m) <= prec)%Z /\
               (d <= Zpos (digits2_pos m) + e)%Z)
  \/ r = S754_infinity sx.

(** Strictly positive, with an exponent the format has. *)
Definition pos_ok (prec emax : Z) (x : spec_float) : Prop :=
  match x with
  | S754_infinity false => True
  | S754_finite false m e => (emin prec emax <= e)%Z
  | _ => False
  end.

(** [+0], or strictly positive. *)
Definition nonneg_ok (prec emax : Z) (x : spec_float) : Prop :=
  match x with
  | S754_zero false => True
  | _ => pos_ok prec emax x
  end.

(** A value [glfw.GetTime] can return: a binary64 number that is not
    negative. *)
Definition clock_reading (t : spec_float) : bool :=
  match t with
  | S754_zero _ => true
  | S754_finite false m e => SpecFloat.bounded 53 1024 m e
  | _ => false
  end.

(** [0 < x], as a float64 comparison. *)
Definition positive64 (x : spec_float) : bool := SFltb (literal 53 1024 0 1) x.
End IEEE.

(** ** The exact-arithmetic instance *)

Module Ideal.






End Ideal.

Import IEEE Ideal.

(** The counter has had a window close: its reading is strictly positive. *)
Definition warm (fc : FPSCounter) : Prop := pos_ok 53 1024 (fps fc).

(** What [Update] keeps, for clock readings, while fewer than [2^63] calls
    have been made: [k] bounds the calls of the open window. *)
Record fps_inv (k : Z) (fc : FPSCounter) : Prop := {
  inv_clock : clock_reading (lastUpdate fc) = true;
  inv_count : (0 <= frameCount fc <= k)%Z;
  inv_fps : fps fc = S754_zero false \/ warm fc
}.

(** Three clock readings for a counterexample: [-2^1023], [2^1023] and the
    binary64 number after it. *)
Definition far_past : spec_float := S754_finite true 4503599627370496 971.
Definition far_future : spec_float := S754_finite false 4503599627370496 971.
Definition far_future' : spec_float := S754_finite false 4503599627370497 971.

(** The camera as [main] sets it up, for running the IEEE model on examples. *)
Definition demo_camera : Camera :=
  set_Position (NewCamera (LM:=series_libm))
               (mkVec3 (lit32 0 1) (lit32 0 1) (lit32 15 1)).

(** Four cursor samples: the baseline, a move right and up, a move far down,
    and a move back. *)
Definition demo_samples : list (spec_float * spec_float) :=
  [ (lit64 400 1, lit64 300 1); (lit64 410 1, lit64 280 1);
    (lit64 410 1, lit64 5000 1); (lit64 395 1, lit64 4990 1) ].

(** Key states for examples and statements: exactly the keys of [ks] are down. *)
Definition Key_eqb (a b : Key) : bool :=
  match a, b with
  | KeyW, KeyW | KeyS, KeyS | KeyA, KeyA | KeyD, KeyD => true
  | _, _ => false
  end.
Definition pressing (ks : list Key) : Window := fun k => existsb (Key_eqb k) ks.



(** The clock readings [1/60, 2/60, ..., n/60], each the binary64 nearest to
    the quotient. *)
Definition times60 (n : nat) : list spec_float :=
  map (fun k => literal 53 1024 (Z.of_nat k) 60) (seq 1 n).

(** Two seconds of clock readings at 60 frames per second, from a counter
    created at time 0. *)
Definition demo_times : list spec_float := times60 120.

(** Frames for running the render loop on examples: two frames with no key
    down, the first delivering [demo_samples], and a frame on which escape is
    down while W is held. *)
Definition idle_frames : list (FrameInput (F:=spec_float)) :=
  [ {| now_frame := lit64 1 60; now_update := lit64 1 60; escape := false;
       keys := pressing []; cursor := demo_samples; closeRequested := false |};
    {| now_frame := lit64 2 60; now_update := lit64 2 60; escape := false;
       keys := pressing []; cursor := []; closeRequested := false |} ].

Definition escape_frame : FrameInput (F:=spec_float) :=
  {| now_frame := lit64 3 60; now_update := lit64 3 60; escape := true;
     keys := pressing [KeyW]; cursor := []; closeRequested := false |}.

Unset Implicit Arguments.

(** * What the handlers do, whatever the arithmetic *)

Section HandlerFacts.
Context {F : Type} {FL : Float F} {LM : Libm F}.

Lemma updateCameraVectors_eq : forall c : Camera,
  updateCameraVectors c =
  mkCamera (Position c) (basis_front (Yaw c) (Pitch c))
           (basis_up (Yaw c) (Pitch c) (WorldUp c))
           (basis_right (Yaw c) (Pitch c) (WorldUp c))
           (WorldUp c) (Yaw c) (Pitch c) (MovementSpeed c) (MouseSens c)
           (firstMouse c) (lastX c) (lastY c).
Proof. intros []; reflexivity. Qed.

Lemma NewCamera_eq :
  NewCamera =
  mkCamera (mkVec3 (lit32 0 1) (lit32 0 1) (lit32 3 1))
           (basis_front (lit32 (-90) 1) (lit32 0 1))
           (basis_up (lit32 (-90) 1) (lit32 0 1) (mkVec3 (lit32 0 1) (lit32 1 1) (lit32 0 1)))
           (basis_right (lit32 (-90) 1) (lit32 0 1) (mkVec3 (lit32 0 1) (lit32 1 1) (lit32 0 1)))
           (mkVec3 (lit32 0 1) (lit32 1 1) (lit32 0 1))
           (lit32 (-90) 1) (lit32 0 1) (lit32 5 2) (lit32 1 10) true (lit64 0 1) (lit64 0 1).
Proof. unfold NewCamera. rewrite updateCameraVectors_eq. reflexivity. Qed.

Lemma HandleMouseMovement_first : forall (c : Camera) x y,
  firstMouse c = true ->
  HandleMouseMovement c x y =
  mkCamera (Position c) (Front c) (Up c) (Right c) (WorldUp c) (Yaw c) (Pitch c)
           (MovementSpeed c) (MouseSens c) false x y.
Proof. intros [] x y H; cbn in H; subst. reflexivity. Qed.

Lemma HandleMouseMovement_tracking : forall (c : Camera) x y,
  firstMouse c = false -> HandleMouseMovement c x y = tracked c x y.
Proof.
  intros [] x y H; cbn in H; subst.
  unfold HandleMouseMovement, tracked, turned_pitch, turned_yaw; cbn.
  destruct (f_gt _ _); cbn; destruct (f_lt _ _); reflexivity.
Qed.

Lemma cursorCallback_first : forall (c : Camera) x y,
  firstMouse c = true ->
  cursorCallback c x y =
  tracked (mkCamera (Position c) (Front c) (Up c) (Right c) (WorldUp c) (Yaw c) (Pitch c)
             (MovementSpeed c) (MouseSens c) false x y) x y.
Proof.
  intros [] x y H; cbn in H; subst.
  unfold cursorCallback, tracked, turned_pitch, turned_yaw; cbn.
  destruct (f_gt _ _); cbn; destruct (f_lt _ _); reflexivity.
Qed.

Lemma cursorCallback_tracking : forall (c : Camera) x y,
  firstMouse c = false -> cursorCallback c x y = tracked c x y.
Proof.
  intros [] x y H; cbn in H; subst.
  unfold cursorCallback, tracked, turned_pitch, turned_yaw; cbn.
  destruct (f_gt _ _); cbn; destruct (f_lt _ _); reflexivity.
Qed.

Lemma tracked_eq : forall (c : Camera) x y,
  tracked c x y =
  mkCamera (Position c)
           (basis_front (turned_yaw c x) (turned_pitch c y))
           (basis_up (turned_yaw c x) (turned_pitch c y) (WorldUp c))
           (basis_right (turned_yaw c x) (turned_pitch c y) (WorldUp c))
           (WorldUp c) (turned_yaw c x) (turned_pitch c y)
           (MovementSpeed c) (MouseSens c) (firstMouse c) x y.
Proof. intros. unfold tracked. now rewrite updateCameraVectors_eq. Qed.

Lemma HandleMouseMovement_clears_flag : forall (c : Camera) x y,
  firstMouse (HandleMouseMovement c x y) = false.
Proof.
  intros c x y. destruct (firstMouse c) eqn:E.
  - now rewrite HandleMouseMovement_first.
  - rewrite HandleMouseMovement_tracking, tracked_eq by assumption. exact E.
Qed.

Lemma cursorCallback_clears_flag : forall (c : Camera) x y,
  firstMouse (cursorCallback c x y) = false.
Proof.
  intros c x y. destruct (firstMouse c) eqn:E.
  - rewrite cursorCallback_first, tracked_eq by assumption. reflexivity.
  - rewrite cursorCallback_tracking, tracked_eq by assumption. exact E.
Qed.

Lemma feed_nil : forall (h : Camera -> F -> F -> Camera) c, feed h [] c = c.
Proof. reflexivity. Qed.

Lemma feed_cons : forall (h : Camera -> F -> F -> Camera) s rest c,
  feed h (s :: rest) c = feed h rest (h c (fst s) (snd s)).
Proof. reflexivity. Qed.

Lemma feed_invariant (P : Camera -> Prop) (h : Camera -> F -> F -> Camera) :
  (forall c x y, P c -> P (h c x y)) ->
  forall samples c, P c -> P (feed h samples c).
Proof.
  intros Hstep; induction samples as [|s rest IH]; intros c Hc.
  - now rewrite feed_nil.
  - rewrite feed_cons. apply IH, Hstep, Hc.
Qed.

Lemma feed_agree (h1 h2 : Camera -> F -> F -> Camera) (P : Camera -> Prop) :
  (forall c x y, P c -> h1 c x y = h2 c x y) ->
  (forall c x y, P c -> P (h2 c x y)) ->
  forall samples c, P c -> feed h1 samples c = feed h2 samples c.
Proof.
  intros Heq Hpres; induction samples as [|s rest IH]; intros c Hc.
  - now rewrite !feed_nil.
  - rewrite !feed_cons, Heq by assumption. apply IH. now apply Hpres.
Qed.

Lemma trace_invariant (P : Camera -> Prop) (Q : F * F -> Prop)
      (h : Camera -> F -> F -> Camera) :
  (forall c s, P c -> Q s -> P (h c (fst s) (snd s))) ->
  forall samples c, P c -> Forall Q samples -> Forall P (trace h samples c).
Proof.
  intros Hstep; induction samples as [|s rest IH]; intros c Hc HQ; simpl.
  - constructor.
  - inversion HQ; subst. constructor; auto.
Qed.

Lemma agree_after_first : forall (c : Camera) s rest,
  cursorCallback c (fst s) (snd s) = HandleMouseMovement c (fst s) (snd s) ->
  feed cursorCallback (s :: rest) c = feed HandleMouseMovement (s :: rest) c.
Proof.
  intros c s rest H. rewrite !feed_cons, H.
  apply (feed_agree cursorCallback HandleMouseMovement (fun c => firstMouse c = false)).
  - intros. now rewrite cursorCallback_tracking, HandleMouseMovement_tracking.
  - intros. apply HandleMouseMovement_clears_flag.
  - apply HandleMouseMovement_clears_flag.
Qed.

Lemma HandleKeyboard_moved : forall (c : Camera) w dt,
  HandleKeyboard c w dt = set_Position c (moved c w dt).
Proof.
  intros [] w dt. unfold HandleKeyboard, moved, set_Position; cbn.
  destruct (w KeyW), (w KeyS), (w KeyA), (w KeyD); reflexivity.
Qed.

Lemma mainMovement_moved : forall (c : Camera) w dt,
  mainMovement c w dt = set_Position c (moved c w dt).
Proof.
  intros [] w dt. unfold mainMovement, moved, set_Position; cbn.
  destruct (w KeyW), (w KeyS), (w KeyA), (w KeyD); reflexivity.
Qed.
End HandlerFacts.

Lemma NewCamera_awaits_first_sample :
  forall (F : Type) (FL : Float F) (LM : Libm F) (start : Vec3),
    firstMouse (set_Position (NewCamera (F:=F)) start) = true.
Proof. intros. rewrite NewCamera_eq. reflexivity. Qed.

(** * IEEE arithmetic: rounding never invents a NaN *)

Section RoundingNotNan.
Local Open Scope Z_scope.

Lemma iter_pos_inv {A} (P : A -> Prop) (f : A -> A) :
  (forall a, P a -> P (f a)) -> forall n a, P a -> P (SpecFloat.iter_pos f n a).
Proof. intros Hf; induction n; intros a Ha; simpl; auto. Qed.

Lemma shr_1_nonneg : forall r, 0 <= shr_m r -> 0 <= shr_m (shr_1 r).
Proof.
  intros [m r s]; simpl; intros H.
  destruct m as [|[p|p|]|[p|p|]]; simpl; lia.
Qed.

Lemma shr_nonneg : forall r e n, 0 <= shr_m r -> 0 <= shr_m (fst (shr r e n)).
Proof.
  intros r e [|p|p] H; simpl; auto.
  apply (iter_pos_inv (fun r => 0 <= shr_m r)); auto using shr_1_nonneg.
Qed.

Lemma shr_record_of_loc_m : forall m l, shr_m (shr_record_of_loc m l) = m.
Proof. intros m [|[]]; reflexivity. Qed.

Lemma shr_fexp_nonneg : forall prec emax m e l,
  0 <= m -> 0 <= shr_m (fst (shr_fexp prec emax m e l)).
Proof.
  intros; unfold shr_fexp. apply shr_nonneg. rewrite shr_record_of_loc_m; auto.
Qed.

Lemma round_nearest_even_nonneg : forall m l, 0 <= m -> 0 <= round_nearest_even m l.
Proof.
  intros m [|[]] H; simpl; try lia. destruct (Z.even m); lia.
Qed.

Lemma binary_round_aux_not_nan : forall prec emax sx mx ex lx,
  0 <= mx -> binary_round_aux prec emax sx mx ex lx <> S754_nan.
Proof.
  intros prec emax sx mx ex lx H. unfold binary_round_aux.
  pose proof (shr_fexp_nonneg prec emax mx ex lx H) as H1.
  destruct (shr_fexp prec emax mx ex lx) as [r1 e1]; simpl in H1.
  pose proof (shr_fexp_nonneg prec emax _ e1 loc_Exact
                (round_nearest_even_nonneg _ (loc_of_shr_record r1) H1)) as H2.
  destruct (shr_fexp prec emax _ e1 loc_Exact) as [r2 e2]; simpl in H2.
  destruct (shr_m r2); try lia; try discriminate.
  destruct (e2 <=? emax - prec); discriminate.
Qed.

Lemma binary_round_not_nan : forall prec emax s m e,
  binary_round prec emax s m e <> S754_nan.
Proof.
  intros; unfold binary_round.
  destruct (shl_align m e _) as [mz ez].
  apply binary_round_aux_not_nan; lia.
Qed.

Lemma binary_normalize_not_nan : forall prec emax m e s,
  binary_normalize prec emax m e s <> S754_nan.
Proof.
  intros prec emax [|p|p] e s; simpl; try discriminate; apply binary_round_not_nan.
Qed.

Lemma SFsub_finite_not_nan : forall prec emax x y,
  finite x = true -> finite y = true -> is_nan (SFsub prec emax x y) = false.
Proof.
  intros prec emax x y Hx Hy.
  destruct x as [sx|sx| |sx mx ex]; try discriminate;
  destruct y as [sy|sy| |sy my ey]; try discriminate; simpl;
  try (destruct sx, sy; reflexivity); try reflexivity.
  destruct (binary_normalize _ _ _ _ _) eqn:E; try reflexivity.
  exfalso; revert E; apply binary_normalize_not_nan.
Qed.

Lemma SFadd_finite_not_nan : forall prec emax x y,
  finite x = true -> is_nan y = false -> is_nan (SFadd prec emax x y) = false.
Proof.
  intros prec emax x y Hx Hy.
  destruct x as [sx|sx| |sx mx ex]; try discriminate;
  destruct y as [sy|sy| |sy my ey]; try discriminate; simpl;
  try (destruct sx, sy; reflexivity); try reflexivity.
  destruct (binary_normalize _ _ _ _ _) eqn:E; try reflexivity.
  exfalso; revert E; apply binary_normalize_not_nan.
Qed.

Lemma SFmul_finite_not_nan : forall prec emax x s m e,
  is_nan x = false -> is_nan (SFmul prec emax x (S754_finite s m e)) = false.
Proof.
  intros prec emax x s m e Hx.
  destruct x as [sx|sx| |sx mx ex]; try discriminate; simpl; try reflexivity.
  destruct (binary_round_aux _ _ _ _ _ _) eqn:E; try reflexivity.
  exfalso; revert E; apply binary_round_aux_not_nan; lia.
Qed.

Lemma round_to_not_nan : forall prec emax x,
  is_nan x = false -> is_nan (round_to prec emax x) = false.
Proof.
  intros prec emax x Hx.
  destruct x as [sx|sx| |sx mx ex]; try discriminate; simpl; try reflexivity.
  destruct (binary_round _ _ _ _ _) eqn:E; try reflexivity.
  exfalso; revert E; apply binary_round_not_nan.
Qed.

Lemma SFsub_diag : forall prec emax x,
  finite x = true -> SFsub prec emax x x = S754_zero false.
Proof.
  intros prec emax [[]|[]| |s m e]; try discriminate; intros _; try reflexivity.
  simpl. rewrite Z.sub_diag. reflexivity.
Qed.

Lemma SFcompare_not_nan : forall x y,
  is_nan x = false -> is_nan y = false -> SFcompare x y <> None.
Proof. intros [| | |] [| | |]; simpl; intros; discriminate. Qed.
End RoundingNotNan.

(** * The pitch clamp *)

Lemma pitch_in_range_finite : forall p, pitch_in_range p = true -> finite p = true.
Proof.
  intros p H. unfold pitch_in_range in H. apply andb_prop in H as [H1 H2].
  destruct p as [s|s| |s m e]; try reflexivity.
  - destruct s; [ discriminate H1 | discriminate H2 ].
  - discriminate H1.
Qed.

Lemma clamp_range : forall p, is_nan p = false -> pitch_in_range (clamp p) = true.
Proof.
  intros p Hp. unfold clamp, pitch_in_range, gtb, geb, SFltb, SFleb.
  pose proof (SFcompare_not_nan p (literal 24 128 89 1) Hp eq_refl) as N1.
  pose proof (SFcompare_not_nan p (literal 24 128 (-89) 1) Hp eq_refl) as N2.
  destruct (SFcompare p (literal 24 128 89 1)) as [[]|] eqn:E1; try congruence;
  try reflexivity;
  destruct (SFcompare p (literal 24 128 (-89) 1)) as [[]|] eqn:E2; try congruence;
  rewrite ?E1, ?E2; reflexivity.
Qed.

Lemma clamp_nan_or_range : forall p,
  is_nan (clamp p) = true \/ pitch_in_range (clamp p) = true.
Proof.
  intros p. destruct (is_nan p) eqn:E.
  - left. destruct p; try discriminate. reflexivity.
  - right. now apply clamp_range.
Qed.

Section IEEECamera.
Context {LM : Libm spec_float}.

Lemma turned_pitch_clamp : forall (c : Camera) y,
  turned_pitch c y =
  clamp (SFadd 24 128 (Pitch c)
           (round_to 24 128
              (SFmul 53 1024 (SFsub 53 1024 (lastY c) y)
                     (round_to 53 1024 (MouseSens c))))).
Proof. reflexivity. Qed.

(** What the cursor handlers keep when the vertical coordinate is a number. *)
Record steady (c : Camera) : Prop := {
  steady_sens : MouseSens c = literal 24 128 1 10;
  steady_lastY : finite (lastY c) = true;
  steady_pitch : pitch_in_range (Pitch c) = true
}.

Definition nan_or_clamped (c : Camera) : Prop :=
  is_nan (Pitch c) = true \/ pitch_in_range (Pitch c) = true.

Lemma tracked_nan_or_clamped : forall (c : Camera) x y, nan_or_clamped (tracked c x y).
Proof.
  intros. unfold nan_or_clamped. rewrite tracked_eq; cbn [Pitch].
  rewrite turned_pitch_clamp. apply clamp_nan_or_range.
Qed.

Lemma tracked_steady : forall (c : Camera) x y,
  steady c -> finite y = true -> steady (tracked c x y).
Proof.
  intros c x y [Hs Hy Hp] Fy. rewrite tracked_eq.
  split; cbn [MouseSens lastY Pitch]; auto.
  rewrite turned_pitch_clamp. apply clamp_range.
  apply SFadd_finite_not_nan; [ now apply pitch_in_range_finite | ].
  apply round_to_not_nan. rewrite Hs.
  let v := eval vm_compute in (round_to 53 1024 (literal 24 128 1 10)) in
  change (round_to 53 1024 (literal 24 128 1 10)) with v.
  apply SFmul_finite_not_nan. now apply SFsub_finite_not_nan.
Qed.

Lemma start_steady : forall start, steady (set_Position NewCamera start).
Proof. intros. rewrite NewCamera_eq. split; reflexivity. Qed.

Lemma HandleMouseMovement_steady : forall (c : Camera) (s : spec_float * spec_float),
  steady c -> finite (snd s) = true -> steady (HandleMouseMovement c (fst s) (snd s)).
Proof.
  intros c [x y] Hc Hy; simpl in *. destruct (firstMouse c) eqn:E.
  - rewrite HandleMouseMovement_first by assumption.
    destruct Hc; split; auto.
  - rewrite HandleMouseMovement_tracking by assumption. now apply tracked_steady.
Qed.

Lemma cursorCallback_steady : forall (c : Camera) (s : spec_float * spec_float),
  steady c -> finite (snd s) = true -> steady (cursorCallback c (fst s) (snd s)).
Proof.
  intros c [x y] Hc Hy; simpl in *. destruct (firstMouse c) eqn:E.
  - rewrite cursorCallback_first by assumption.
    apply tracked_steady; auto. destruct Hc; split; auto.
  - rewrite cursorCallback_tracking by assumption. now apply tracked_steady.
Qed.

Lemma HandleMouseMovement_nan_or_clamped :
  forall (c : Camera) (s : spec_float * spec_float),
    nan_or_clamped c -> True -> nan_or_clamped (HandleMouseMovement c (fst s) (snd s)).
Proof.
  intros c [x y] Hc _; simpl. destruct (firstMouse c) eqn:E.
  - rewrite HandleMouseMovement_first by assumption. exact Hc.
  - rewrite HandleMouseMovement_tracking by assumption. apply tracked_nan_or_clamped.
Qed.

Lemma cursorCallback_nan_or_clamped :
  forall (c : Camera) (s : spec_float * spec_float),
    nan_or_clamped c -> True -> nan_or_clamped (cursorCallback c (fst s) (snd s)).
Proof.
  intros c [x y] Hc _; simpl. destruct (firstMouse c) eqn:E.
  - rewrite cursorCallback_first by assumption. apply tracked_nan_or_clamped.
  - rewrite cursorCallback_tracking by assumption. apply tracked_nan_or_clamped.
Qed.

Lemma Forall_True : forall (A : Type) (l : list A), Forall (fun _ => True) l.
Proof. induction l; constructor; auto. Qed.

Lemma turned_yaw_still : forall P Fr U R W ms fm (x y : spec_float),
  finite x = true ->
  turned_yaw (mkCamera P Fr U R W (lit32 (-90) 1) (lit32 0 1) ms (lit32 1 10) fm x y) x
  = lit32 (-90) 1.
Proof.
  intros. unfold turned_yaw; cbn [Yaw lastX MouseSens].
  change (@f64_sub _ ieee) with (SFsub 53 1024).
  rewrite SFsub_diag by assumption. vm_compute. reflexivity.
Qed.

Lemma turned_pitch_still : forall P Fr U R W ms fm (x y : spec_float),
  finite y = true ->
  turned_pitch (mkCamera P Fr U R W (lit32 (-90) 1) (lit32 0 1) ms (lit32 1 10) fm x y) y
  = lit32 0 1.
Proof.
  intros. unfold turned_pitch; cbn [Pitch lastY MouseSens].
  change (@f64_sub _ ieee) with (SFsub 53 1024).
  rewrite SFsub_diag by assumption. vm_compute. reflexivity.
Qed.

Lemma first_sample_agree_gen : forall (c : Camera) x y,
  firstMouse c = true ->
  Yaw c = lit32 (-90) 1 -> Pitch c = lit32 0 1 -> MouseSens c = lit32 1 10 ->
  Front c = basis_front (Yaw c) (Pitch c) ->
  Right c = basis_right (Yaw c) (Pitch c) (WorldUp c) ->
  Up c = basis_up (Yaw c) (Pitch c) (WorldUp c) ->
  finite x = true -> finite y = true ->
  cursorCallback c x y = HandleMouseMovement c x y.
Proof.
  intros [P Fr U R W yaw pitch ms sens fm lx ly] x y.
  cbn [Position Front Up Right WorldUp Yaw Pitch MovementSpeed MouseSens
       firstMouse lastX lastY].
  intros -> -> -> -> HF HR HU Hx Hy.
  rewrite cursorCallback_first, HandleMouseMovement_first by reflexivity.
  rewrite tracked_eq.
  cbn [Position Front Up Right WorldUp Yaw Pitch MovementSpeed MouseSens
       firstMouse lastX lastY].
  rewrite turned_yaw_still, turned_pitch_still by assumption.
  rewrite <- HF, <- HR, <- HU. reflexivity.
Qed.

Lemma first_sample_agree : forall start x y,
  finite x = true -> finite y = true ->
  cursorCallback (set_Position NewCamera start) x y =
  HandleMouseMovement (set_Position NewCamera start) x y.
Proof.
  intros start x y Hx Hy.
  apply first_sample_agree_gen; auto; rewrite NewCamera_eq; reflexivity.
Qed.
End IEEECamera.

(** C2, as the code has it.  The first call of [HandleMouseMovement] on a
    camera whose first-sample flag is set (as [NewCamera] leaves it) changes
    neither yaw, pitch nor position, nor any other field but three: the
    coordinates become the baseline [lastX], [lastY] and the flag is cleared,
    whatever the coordinates are, in any arithmetic.  The callback of [main]
    has no early return: on the camera [NewCamera] builds, wherever it is
    placed, its first call leaves the same camera when both coordinates are
    numbers (neither NaN nor an infinity).  No later call of either handler
    sets the flag again. *)
Theorem first_sample_only_seeds_baseline :
  (forall (F : Type) (FL : Float F) (LM : Libm F) (c : Camera) (x y : F),
     firstMouse c = true ->
     HandleMouseMovement c x y =
       mkCamera (Position c) (Front c) (Up c) (Right c) (WorldUp c) (Yaw c) (Pitch c)
                (MovementSpeed c) (MouseSens c) false x y) /\
  (forall (LM : Libm spec_float) (start : Vec3) (x y : spec_float),
     finite x = true -> finite y = true ->
     let c := set_Position NewCamera start in
     cursorCallback c x y =
       mkCamera (Position c) (Front c) (Up c) (Right c) (WorldUp c) (Yaw c) (Pitch c)
                (MovementSpeed c) (MouseSens c) false x y) /\
  (forall (F : Type) (FL : Float F) (LM : Libm F) (c : Camera) (x y : F)
          (samples : list (F * F)),
     firstMouse (feed HandleMouseMovement samples (HandleMouseMovement c x y)) = false /\
     firstMouse (feed cursorCallback samples (HandleMouseMovement c x y)) = false /\
     firstMouse (feed HandleMouseMovement samples (cursorCallback c x y)) = false /\
     firstMouse (feed cursorCallback samples (cursorCallback c x y)) = false).
Proof.
  split; [ | split ].
  - intros F FL LM c x y H. now apply HandleMouseMovement_first.
  - intros LM start x y Hx Hy c. unfold c.
    rewrite (first_sample_agree start x y Hx Hy).
    apply HandleMouseMovement_first. apply NewCamera_awaits_first_sample.
  - intros F FL LM c x y samples.
    split; [ | split; [ | split ] ].
    + apply (feed_invariant (fun c => firstMouse c = false) HandleMouseMovement).
      * intros; apply HandleMouseMovement_clears_flag.
      * apply HandleMouseMovement_clears_flag.
    + apply (feed_invariant (fun c => firstMouse c = false) cursorCallback).
      * intros; apply cursorCallback_clears_flag.
      * apply HandleMouseMovement_clears_flag.
    + apply (feed_invariant (fun c => firstMouse c = false) HandleMouseMovement).
      * intros; apply HandleMouseMovement_clears_flag.
      * apply cursorCallback_clears_flag.
    + apply (feed_invariant (fun c => firstMouse c = false) cursorCallback).
      * intros; apply cursorCallback_clears_flag.
      * apply cursorCallback_clears_flag.
Qed.

Lemma first_sample_only_seeds_baseline_witness :
  (firstMouse demo_camera = true /\
   finite (lit64 400 1) = true /\ finite (lit64 300 1) = true) /\
  HandleMouseMovement (LM:=series_libm) demo_camera (lit64 400 1) (lit64 300 1) =
    mkCamera (Position demo_camera) (Front demo_camera) (Up demo_camera)
             (Right demo_camera) (WorldUp demo_camera) (Yaw demo_camera)
             (Pitch demo_camera) (MovementSpeed demo_camera) (MouseSens demo_camera)
             false (lit64 400 1) (lit64 300 1) /\
  cursorCallback (LM:=series_libm) demo_camera (lit64 400 1) (lit64 300 1) =
    mkCamera (Position demo_camera) (Front demo_camera) (Up demo_camera)
             (Right demo_camera) (WorldUp demo_camera) (Yaw demo_camera)
             (Pitch demo_camera) (MovementSpeed demo_camera) (MouseSens demo_camera)
             false (lit64 400 1) (lit64 300 1).
Proof.
  assert (H : firstMouse demo_camera = true) by (vm_compute; reflexivity).
  assert (Hx : finite (lit64 400 1) = true) by (vm_compute; reflexivity).
  assert (Hy : finite (lit64 300 1) = true) by (vm_compute; reflexivity).
  split; [ split; [ exact H | split; [ exact Hx | exact Hy ] ] | ].
  split.
  - exact (proj1 first_sample_only_seeds_baseline spec_float ieee series_libm
             demo_camera (lit64 400 1) (lit64 300 1) H).
  - exact (proj1 (proj2 first_sample_only_seeds_baseline) series_libm
             (mkVec3 (lit32 0 1) (lit32 0 1) (lit32 15 1))
             (lit64 400 1) (lit64 300 1) Hx Hy).
Defined.

(** C2 fails as stated for the callback of [main]: a first sample with an
    infinite horizontal coordinate turns the yaw into NaN ([inf - inf]), and
    one with a NaN vertical coordinate turns the pitch into NaN. *)
Lemma callback_first_sample_turns_on_infinity :
  firstMouse demo_camera = true /\
  Yaw demo_camera = lit32 (-90) 1 /\ Pitch demo_camera = lit32 0 1 /\
  Yaw (cursorCallback (LM:=series_libm) demo_camera (S754_infinity false) (lit64 0 1))
    = S754_nan /\
  Pitch (cursorCallback (LM:=series_libm) demo_camera (lit64 0 1) nan) = S754_nan.
Proof. vm_compute. repeat split; reflexivity. Qed.

(** C1, as the code has it.  From the camera [NewCamera] builds, wherever it
    is then placed, and for every sequence of cursor samples given to
    [HandleMouseMovement] or to the callback of [main]: after every call the
    pitch is NaN or lies in [-89, 89]; and it lies in [-89, 89] after every
    call when the vertical coordinate of every sample is a number (neither NaN
    nor an infinity). *)
Theorem pitch_clamped_unless_nan :
  forall (LM : Libm spec_float) (start : Vec3)
         (samples : list (spec_float * spec_float)),
    let c0 := set_Position NewCamera start in
    (Forall nan_or_clamped (trace HandleMouseMovement samples c0) /\
     Forall nan_or_clamped (trace cursorCallback samples c0)) /\
    (Forall (fun s => finite (snd s) = true) samples ->
     Forall (fun c => pitch_in_range (Pitch c) = true)
            (trace HandleMouseMovement samples c0) /\
     Forall (fun c => pitch_in_range (Pitch c) = true)
            (trace cursorCallback samples c0)).
Proof.
  intros LM start samples c0.
  assert (H0 : nan_or_clamped c0)
    by (right; unfold c0; rewrite NewCamera_eq; reflexivity).
  split; [split|intros Hfin; split].
  - apply (trace_invariant nan_or_clamped (fun _ => True)
             HandleMouseMovement HandleMouseMovement_nan_or_clamped);
      auto using Forall_True.
  - apply (trace_invariant nan_or_clamped (fun _ => True)
             cursorCallback cursorCallback_nan_or_clamped);
      auto using Forall_True.
  - apply Forall_impl with (P := steady); [ intros c Hc; now destruct Hc | ].
    apply (trace_invariant steady _ HandleMouseMovement HandleMouseMovement_steady);
      auto; apply start_steady.
  - apply Forall_impl with (P := steady); [ intros c Hc; now destruct Hc | ].
    apply (trace_invariant steady _ cursorCallback cursorCallback_steady);
      auto; apply start_steady.
Qed.

Lemma pitch_clamped_unless_nan_witness :
  Forall (fun s => finite (snd s) = true) demo_samples /\
  Forall (fun c => pitch_in_range (Pitch c) = true)
         (trace (HandleMouseMovement (LM:=series_libm)) demo_samples demo_camera).
Proof.
  assert (H : Forall (fun s : spec_float * spec_float => finite (snd s) = true)
                     demo_samples)
    by (repeat constructor).
  split; [ exact H | ].
  exact (proj1 (proj2 (pitch_clamped_unless_nan series_libm
                         (mkVec3 (lit32 0 1) (lit32 0 1) (lit32 15 1))
                         demo_samples) H)).
Defined.

(** C1 fails as stated: a NaN vertical coordinate on the second call leaves
    the pitch NaN, outside [-89, 89]. *)
Lemma pitch_escapes_on_nan :
  let c := feed (HandleMouseMovement (LM:=series_libm))
                [(lit64 0 1, lit64 0 1); (lit64 0 1, nan)] demo_camera in
  Pitch c = S754_nan /\ pitch_in_range (Pitch c) = false.
Proof. vm_compute. split; reflexivity. Qed.

(** C9, as the code has it.  From the camera [NewCamera] builds, wherever it
    is then placed, the callback of [main] and [HandleMouseMovement] leave the
    same camera after every sequence of samples whose first sample has two
    numbers for coordinates (neither NaN nor an infinity). *)
Theorem handlers_agree_on_numbers :
  forall (LM : Libm spec_float) (start : Vec3)
         (samples : list (spec_float * spec_float)),
    match samples with
    | [] => True
    | s :: _ => finite (fst s) = true /\ finite (snd s) = true
    end ->
    feed cursorCallback samples (set_Position NewCamera start) =
    feed HandleMouseMovement samples (set_Position NewCamera start).
Proof.
  intros LM start [|s rest] H.
  - now rewrite !feed_nil.
  - apply agree_after_first. destruct H. now apply first_sample_agree.
Qed.

Lemma handlers_agree_on_numbers_witness :
  (finite (lit64 400 1) = true /\ finite (lit64 300 1) = true) /\
  feed (cursorCallback (LM:=series_libm)) demo_samples demo_camera =
  feed (HandleMouseMovement (LM:=series_libm)) demo_samples demo_camera.
Proof.
  assert (H : finite (lit64 400 1) = true /\ finite (lit64 300 1) = true)
    by (split; vm_compute; reflexivity).
  split; [ exact H | ].
  exact (handlers_agree_on_numbers series_libm
           (mkVec3 (lit32 0 1) (lit32 0 1) (lit32 15 1)) demo_samples H).
Defined.

(** C9 fails as stated: on a first sample with an infinite coordinate the
    callback computes [inf - inf] and turns the yaw into NaN, while
    [HandleMouseMovement] returns before touching it. *)
Lemma handlers_differ_on_infinity :
  let samples := [(S754_infinity false, lit64 0 1)] in
  Yaw (feed (cursorCallback (LM:=series_libm)) samples demo_camera) = S754_nan /\
  Yaw (feed (HandleMouseMovement (LM:=series_libm)) samples demo_camera) = lit32 (-90) 1 /\
  feed (cursorCallback (LM:=series_libm)) samples demo_camera <>
  feed (HandleMouseMovement (LM:=series_libm)) samples demo_camera.
Proof.
  assert (H1 : Yaw (feed (cursorCallback (LM:=series_libm))
                      [(S754_infinity false, lit64 0 1)] demo_camera) = S754_nan)
    by (vm_compute; reflexivity).
  assert (H2 : Yaw (feed (HandleMouseMovement (LM:=series_libm))
                      [(S754_infinity false, lit64 0 1)] demo_camera) = lit32 (-90) 1)
    by (vm_compute; reflexivity).
  cbv zeta. repeat split; auto.
  intros E. rewrite E in H1. rewrite H1 in H2. discriminate H2.
Qed.

(** * The camera in exact arithmetic *)

Section IdealCamera.
Local Open Scope R_scope.


















End IdealCamera.




(** The same orientation in IEEE arithmetic, with the series libm: the front
    vector of [NewCamera] is (-4.37e-8, 0, -1); its x component, the rounding
    error of float32(pi)/2, is below 2^-24 in magnitude. *)
Lemma initial_front_ieee_series :
  let f := Front demo_camera in
  vy f = S754_zero false /\ vz f = literal 24 128 (-1) 1 /\
  SFltb (literal 24 128 (-1) 16777216) (vx f) = true /\
  SFltb (vx f) (literal 24 128 1 16777216) = true.
Proof. vm_compute. repeat split; reflexivity. Qed.

(** * Keyboard movement *)

Section KeyboardIdeal.
Local Open Scope R_scope.


End KeyboardIdeal.



(** * The frame-rate counter *)

Section FPSFacts.
Local Open Scope Z_scope.

Lemma int_incr_no_wrap : forall n, - 2 ^ 63 <= n < 2 ^ 63 - 1 -> int_incr n = n + 1.
Proof.
  intros n H. unfold int_incr, wrap_int.
  rewrite Z.mod_small by lia. lia.
Qed.

Lemma int_incr_range : forall n, - 2 ^ 63 <= int_incr n < 2 ^ 63.
Proof.
  intros n. unfold int_incr, wrap_int.
  pose proof (Z.mod_pos_bound (n + 1 + 2 ^ 63) (2 ^ 64)). lia.
Qed.

Lemma Update_closing : forall {F} {FL : Float F} (t : F) (fc : FPSCounter),
  f_ge (f64_sub t (lastUpdate fc)) (lit64 1 4) = true ->
  Update t fc =
  let inst := f64_div (f64_of_int (int_incr (frameCount fc)))
                      (f64_sub t (lastUpdate fc)) in
  let smoothed :=
    if f_eq (fps fc) (lit64 0 1) then inst
    else f64_add (f64_mul (fps fc) (lit64 9 10)) (f64_mul inst (lit64 1 10)) in
  (smoothed, mkFPS t 0 smoothed).
Proof. intros F FL t fc H. unfold Update; cbn. rewrite H. reflexivity. Qed.

Lemma Update_waiting : forall {F} {FL : Float F} (t : F) (fc : FPSCounter),
  f_ge (f64_sub t (lastUpdate fc)) (lit64 1 4) = false ->
  Update t fc =
  (fps fc, mkFPS (lastUpdate fc) (int_incr (frameCount fc)) (fps fc)).
Proof. intros F FL t fc H. unfold Update; cbn. rewrite H. reflexivity. Qed.

Lemma geb_cases : forall x y : spec_float,
  (SFltb x y = true -> geb x y = false) /\
  (is_nan x || is_nan y = true -> geb x y = false) /\
  (is_nan x = false -> is_nan y = false -> SFltb x y = false -> geb x y = true).
Proof.
  intros x y. unfold SFltb, geb.
  pose proof (SFcompare_not_nan x y) as N.
  destruct (SFcompare x y) as [[]|] eqn:E; repeat split; intros; try congruence;
    try reflexivity.
  - destruct x, y; simpl in *; congruence.
  - destruct x, y; simpl in *; congruence.
  - exfalso; now apply N.
Qed.
End FPSFacts.

(** C3.  [Update] with clock reading [t] increments
    [frameCount] (Go's [int] increment: plus one below the largest int).
    When [t - lastUpdate >= 0.25] holds it divides the incremented count by
    [t - lastUpdate], stores that quotient in [fps] if [fps == 0] and
    [fps*0.9 + quotient*0.1] otherwise, sets [frameCount] to 0 and
    [lastUpdate] to [t], and returns the new [fps].  When the test fails it
    returns [fps] and changes nothing but the count.  For a difference that
    is a number, as every difference of two clock readings is, the test fails
    exactly when the difference is below 0.25; a NaN difference also fails
    it. *)
Theorem Update_behaviour :
  forall (t : spec_float) (fc : FPSCounter),
    let elapsed := SFsub 53 1024 t (lastUpdate fc) in
    let n := int_incr (frameCount fc) in
    let inst := SFdiv 53 1024 (of_Z 53 1024 n) elapsed in
    let smoothed :=
      if SFeqb (fps fc) (literal 53 1024 0 1) then inst
      else SFadd 53 1024 (SFmul 53 1024 (fps fc) (literal 53 1024 9 10))
                         (SFmul 53 1024 inst (literal 53 1024 1 10)) in
    (geb elapsed (literal 53 1024 1 4) = true ->
       Update t fc = (smoothed, mkFPS t 0%Z smoothed)) /\
    (geb elapsed (literal 53 1024 1 4) = false ->
       Update t fc = (fps fc, mkFPS (lastUpdate fc) n (fps fc))) /\
    (SFltb elapsed (literal 53 1024 1 4) = true ->
       geb elapsed (literal 53 1024 1 4) = false) /\
    (is_nan elapsed = true -> geb elapsed (literal 53 1024 1 4) = false) /\
    (is_nan elapsed = false -> SFltb elapsed (literal 53 1024 1 4) = false ->
       geb elapsed (literal 53 1024 1 4) = true) /\
    ((- 2 ^ 63 <= frameCount fc < 2 ^ 63 - 1)%Z -> n = (frameCount fc + 1)%Z).
Proof.
  intros t fc elapsed n inst smoothed.
  destruct (geb_cases elapsed (literal 53 1024 1 4)) as (G1 & G2 & G3).
  repeat split.
  - intros H. now rewrite (Update_closing (FL:=ieee) t fc H).
  - intros H. now rewrite (Update_waiting (FL:=ieee) t fc H).
  - exact G1.
  - intros H. apply G2. now rewrite H.
  - intros H1 H2. now apply G3.
  - apply int_incr_no_wrap.
Qed.

Lemma Update_behaviour_witness :
  (geb (SFsub 53 1024 (literal 53 1024 1 2) (literal 53 1024 0 1))
       (literal 53 1024 1 4) = true) /\
  Update (literal 53 1024 1 2) (mkFPS (literal 53 1024 0 1) 29%Z (literal 53 1024 0 1))
  = (literal 53 1024 60 1, mkFPS (literal 53 1024 1 2) 0%Z (literal 53 1024 60 1)).
Proof.
  assert (H : geb (SFsub 53 1024 (literal 53 1024 1 2) (literal 53 1024 0 1))
                  (literal 53 1024 1 4) = true) by (vm_compute; reflexivity).
  split; [ exact H | ].
  rewrite (proj1 (Update_behaviour (literal 53 1024 1 2)
                    (mkFPS (literal 53 1024 0 1) 29%Z (literal 53 1024 0 1))) H).
  vm_compute. reflexivity.
Defined.

(** Beyond the clock's range: with NaN for the reading the difference is not
    below 0.25, yet [Update] neither resets the count nor moves
    [lastUpdate]. *)
Lemma Update_nan_keeps_window :
  let fc := NewFPSCounter (literal 53 1024 0 1) in
  SFltb (SFsub 53 1024 nan (lastUpdate fc)) (literal 53 1024 1 4) = false /\
  snd (Update nan fc) = mkFPS (literal 53 1024 0 1) 1%Z (literal 53 1024 0 1).
Proof. vm_compute. split; reflexivity. Qed.

(** C8.  Started at time 0 with an empty window and called at the times
    1/60, 2/60, ..., [Update] returns 0 for the first 14 calls and exactly 60
    from the 15th call to the 120th, the call at 2 seconds; 60 is within 2%
    of 60. *)
Theorem sixty_fps_after_two_seconds :
  let vs := fst (run_updates (times60 120) (NewFPSCounter (literal 53 1024 0 1))) in
  length vs = 120%nat /\
  firstn 14 vs = repeat (literal 53 1024 0 1) 14 /\
  skipn 14 vs = repeat (literal 53 1024 60 1) 106 /\
  nth 119 vs nan = literal 53 1024 60 1 /\
  SFleb (literal 53 1024 588 10) (nth 119 vs nan) = true /\
  SFleb (nth 119 vs nan) (literal 53 1024 612 10) = true.
Proof. vm_compute. repeat split; reflexivity. Qed.



(** * Rounding to nearest, bit by bit

    [binary_round_aux] shifts the mantissa right until it fits the format,
    rounds on the bits shifted out, and shifts once more if the rounding
    carried.  The lemmas below follow the mantissa and the exponent through
    these steps. *)

Section RoundingSteps.
Local Open Scope Z_scope.


(** digits *)
Lemma digits2_pos_bounds : forall p,
  2 ^ (Zpos (digits2_pos p) - 1) <= Zpos p < 2 ^ Zpos (digits2_pos p).
Proof.
  induction p as [p IH|p IH|]; simpl digits2_pos.
  - rewrite Pos2Z.inj_succ. replace (Z.succ (Zpos (digits2_pos p)) - 1) with (Z.succ (Zpos (digits2_pos p) - 1)) by lia.
    rewrite !Z.pow_succ_r by lia. lia.
  - rewrite Pos2Z.inj_succ. replace (Z.succ (Zpos (digits2_pos p)) - 1) with (Z.succ (Zpos (digits2_pos p) - 1)) by lia.
    rewrite !Z.pow_succ_r by lia. lia.
  - simpl. lia.
Qed.

Lemma digits_le : forall p k, Zpos p < 2 ^ k -> Zpos (digits2_pos p) <= k.
Proof.
  intros p k H. destruct (Z.le_gt_cases (Zpos (digits2_pos p)) k) as [|G]; auto.
  exfalso. pose proof (digits2_pos_bounds p) as [B _].
  destruct (Z.le_gt_cases 0 k) as [K|K].
  - assert (2 ^ k <= 2 ^ (Zpos (digits2_pos p) - 1)) by (apply Z.pow_le_mono_r; lia). lia.
  - rewrite Z.pow_neg_r in H by lia. lia.
Qed.

Lemma digits_gt : forall p k, 0 <= k -> 2 ^ k <= Zpos p -> k < Zpos (digits2_pos p).
Proof.
  intros p k K H. destruct (Z.le_gt_cases (Zpos (digits2_pos p)) k) as [G|]; auto.
  exfalso. pose proof (digits2_pos_bounds p) as [_ B].
  assert (2 ^ Zpos (digits2_pos p) <= 2 ^ k) by (apply Z.pow_le_mono_r; lia). lia.
Qed.

Lemma Zdigits2_pos : forall p, Zdigits2 (Zpos p) = Zpos (digits2_pos p).
Proof. reflexivity. Qed.

(** iteration with a counter *)
Lemma iter_pos_count {A} (f : A -> A) (P : Z -> A -> Prop) :
  (forall k a, 0 <= k -> P k a -> P (k + 1) (f a)) ->
  forall n k a, 0 <= k -> P k a -> P (k + Zpos n) (SpecFloat.iter_pos f n a).
Proof.
  intros Hf. induction n as [n IH|n IH|]; intros k a Hk Ha; simpl.
  - replace (k + Zpos n~1) with (k + 1 + Zpos n + Zpos n) by lia.
    apply IH; [lia|]. apply IH; [lia|]. now apply Hf.
  - replace (k + Zpos n~0) with (k + Zpos n + Zpos n) by lia.
    apply IH; [lia|]. now apply IH.
  - now apply Hf.
Qed.

Lemma shr_1_m : forall r, 0 <= shr_m r -> shr_m (shr_1 r) = shr_m r / 2.
Proof.
  intros [m r s]; cbn [shr_m]; intros H.
  destruct m as [|[p|p|]|p]; cbn [shr_1 shr_m]; try lia.
  - reflexivity.
  - apply Z.div_unique with 1; lia.
  - apply Z.div_unique with 0; lia.
  - reflexivity.
Qed.

Lemma shr_iter_m : forall n r, 0 <= shr_m r ->
  shr_m (SpecFloat.iter_pos shr_1 n r) = shr_m r / 2 ^ Zpos n.
Proof.
  intros n r H.
  pose proof (iter_pos_count shr_1
    (fun k a => 0 <= shr_m a /\ shr_m a = shr_m r / 2 ^ k)) as L.
  specialize (L ltac:(
    intros k a Hk [Ha1 Ha2]; split;
    [ apply shr_1_nonneg; assumption
    | rewrite shr_1_m by assumption; rewrite Ha2, Z.pow_add_r by lia;
      rewrite Z.div_div by lia; reflexivity ]) n 0 r (Z.le_refl 0)).
  cbv beta in L. rewrite Z.add_0_l in L. apply L. split; [assumption|]. now rewrite Z.div_1_r.
Qed.



Lemma pow2_mult4 : forall j, 1 <= j -> exists q, 2 ^ (j + 1) = 4 * q /\ 2 ^ j = 2 * q.
Proof.
  intros j Hj. exists (2 ^ (j - 1)).
  assert (E1 : 2 ^ (j + 1) = 2 ^ (j - 1) * 2 ^ 2)
    by (rewrite <- Z.pow_add_r by lia; f_equal; lia).
  assert (E2 : 2 ^ j = 2 ^ (j - 1) * 2 ^ 1)
    by (rewrite <- Z.pow_add_r by lia; f_equal; lia).
  change (2 ^ 2) with 4 in E1. change (2 ^ 1) with 2 in E2. lia.
Qed.

Lemma shr_1_weight : forall r j, 0 <= shr_m r -> 1 <= j ->
  2 ^ (j + 1) < weight r -> 2 ^ j < weight (shr_1 r).
Proof.
  intros [m r s] j Hm Hj. unfold weight; simpl shr_m in *; simpl shr_r; simpl shr_s.
  destruct (pow2_mult4 j Hj) as (q & -> & ->).
  destruct m as [|[p|p|]|p]; try lia; destruct r, s; cbn [shr_1 shr_m shr_r shr_s orb];
    try pose proof (Pos2Z.inj_xI p); try pose proof (Pos2Z.inj_xO p); lia.
Qed.

Lemma shr_iter_weight : forall n r T, 0 <= shr_m r -> 1 <= T ->
  2 ^ (Zpos n + T) < weight r ->
  2 ^ T < weight (SpecFloat.iter_pos shr_1 n r) /\ 0 <= shr_m (SpecFloat.iter_pos shr_1 n r).
Proof.
  intros n r T Hm HT Hw.
  pose proof (iter_pos_count shr_1
    (fun k a => 0 <= shr_m a /\ (k <= Zpos n -> 2 ^ (Zpos n + T - k) < weight a))) as L.
  specialize (L ltac:(
    intros k a Hk [Ha1 Ha2]; split;
    [ apply shr_1_nonneg; assumption
    | intros Hle; replace (Zpos n + T - (k + 1)) with (Zpos n + T - k - 1) by lia;
      apply shr_1_weight; [assumption | lia | ];
      replace (Zpos n + T - k - 1 + 1) with (Zpos n + T - k) by lia; apply Ha2; lia ])
    n 0 r (Z.le_refl 0)).
  cbv beta in L. rewrite Z.add_0_l in L. destruct L as [L1 L2].
  - split; [assumption|]. intros _. now rewrite Z.sub_0_r.
  - split; [|assumption]. specialize (L2 (Z.le_refl _)).
    now replace (Zpos n + T - Zpos n) with T in L2 by lia.
Qed.

Lemma round_nearest_even_bounds : forall m l,
  m <= round_nearest_even m l <= m + 1.
Proof. intros m [|[]]; simpl; try lia. destruct (Z.even m); lia. Qed.

Lemma round_weight_pos : forall r, 0 <= shr_m r -> 2 < weight r ->
  1 <= round_nearest_even (shr_m r) (loc_of_shr_record r).
Proof.
  intros [m r s]; unfold weight; cbn [shr_m shr_r shr_s]. intros Hm Hw.
  destruct r, s; cbn [loc_of_shr_record round_nearest_even]; try lia.
  destruct (Z.even m) eqn:E; lia.
Qed.

End RoundingSteps.

Section RoundingShape.
Local Open Scope Z_scope.


Lemma div_pow_lower : forall x a k, 0 <= k <= a -> 2 ^ a <= x -> 2 ^ (a - k) <= x / 2 ^ k.
Proof.
  intros x a k Hk Hx. apply Z.div_le_lower_bound; [ apply Z.pow_pos_nonneg; lia | ].
  rewrite <- Z.pow_add_r by lia. now replace (k + (a - k)) with a by lia.
Qed.

Lemma div_pow_upper : forall x a k, 0 <= k <= a -> x < 2 ^ a -> x / 2 ^ k < 2 ^ (a - k).
Proof.
  intros x a k Hk Hx. apply Z.div_lt_upper_bound; [ apply Z.pow_pos_nonneg; lia | ].
  rewrite <- Z.pow_add_r by lia. now replace (k + (a - k)) with a by lia.
Qed.

Lemma pow2_pos : forall k, 0 <= k -> 1 <= 2 ^ k.
Proof. intros. pose proof (Z.pow_pos_nonneg 2 k). lia. Qed.

Lemma weight_of_loc : forall m l, 4 * m <= weight (shr_record_of_loc m l).
Proof. intros m [|[]]; unfold weight; simpl; lia. Qed.

Section Round.
Variables prec emax : Z.
Hypothesis Hprec : 2 <= prec.

Let emin := SpecFloat.emin prec emax.
Let fexp := SpecFloat.fexp prec emax.

Lemma fexp_eq : forall e, fexp e = Z.max (e - prec) emin.
Proof. reflexivity. Qed.

Lemma shr_fexp_stay : forall m e l,
  fexp (Zdigits2 m + e) - e <= 0 ->
  shr_fexp prec emax m e l = (shr_record_of_loc m l, e).
Proof.
  intros m e l H. unfold shr_fexp, shr. fold fexp.
  destruct (fexp (Zdigits2 m + e) - e); try reflexivity. lia.
Qed.

Lemma shr_fexp_shift : forall m e l,
  0 <= m -> 0 < fexp (Zdigits2 m + e) - e ->
  let n := fexp (Zdigits2 m + e) - e in
  let r := fst (shr_fexp prec emax m e l) in
  snd (shr_fexp prec emax m e l) = e + n /\
  shr_m r = m / 2 ^ n /\ 0 <= shr_m r /\
  (2 ^ (n - 1) < m -> 2 < weight r).
Proof.
  intros m e l Hm H n r. subst n r. unfold shr_fexp, shr. fold fexp.
  destruct (fexp (Zdigits2 m + e) - e) as [|p|p] eqn:E; try lia.
  cbn [fst snd]. split; [reflexivity|].
  assert (Hm' : 0 <= shr_m (shr_record_of_loc m l)) by now rewrite shr_record_of_loc_m.
  split; [ rewrite shr_iter_m by assumption; now rewrite shr_record_of_loc_m | ].
  split.
  - apply (iter_pos_inv (fun r => 0 <= shr_m r)); auto using shr_1_nonneg.
  - intros Hw.
    destruct (shr_iter_weight p (shr_record_of_loc m l) 1 Hm' (Z.le_refl 1)) as [W _];
      [ | exact W ].
    pose proof (weight_of_loc m l).
    assert (2 ^ (Zpos p + 1) = 4 * 2 ^ (Zpos p - 1)).
    { replace (Zpos p + 1) with (2 + (Zpos p - 1)) by lia.
      rewrite Z.pow_add_r by lia. reflexivity. }
    lia.
Qed.

Lemma shr_fexp_exp : forall m e l, emin <= snd (shr_fexp prec emax m e l).
Proof.
  intros m e l. unfold shr_fexp, shr. fold fexp.
  pose proof (fexp_eq (Zdigits2 m + e)).
  destruct (fexp (Zdigits2 m + e) - e) as [|p|p] eqn:E; cbn [snd]; lia.
Qed.



Lemma binary_round_aux_pos : forall sx mx ex lx,
  (fexp (Zpos (digits2_pos mx) + ex) - ex <= 0 \/
   2 ^ (fexp (Zpos (digits2_pos mx) + ex) - ex - 1) < Zpos mx) ->
  rounds_to prec emax sx (Zpos (digits2_pos mx) + ex)
            (binary_round_aux prec emax sx (Zpos mx) ex lx).
Proof.
  intros sx mx ex lx H.
  set (d := Zpos (digits2_pos mx)) in *.
  pose proof (digits2_pos_bounds mx) as [Dlo Dhi]. fold d in Dlo, Dhi.
  unfold binary_round_aux.
  (* first shift and rounding *)
  assert (S1 : exists m1 e1,
    shr_fexp prec emax (Zpos mx) ex lx = (fst (shr_fexp prec emax (Zpos mx) ex lx), e1) /\
    round_nearest_even (shr_m (fst (shr_fexp prec emax (Zpos mx) ex lx)))
      (loc_of_shr_record (fst (shr_fexp prec emax (Zpos mx) ex lx))) = Zpos m1 /\
    emin <= e1 /\ d + ex <= Zpos (digits2_pos m1) + e1).
  { pose proof (shr_fexp_exp (Zpos mx) ex lx) as He.
    destruct (Z.le_gt_cases (fexp (Zdigits2 (Zpos mx) + ex) - ex) 0) as [N|N].
    - rewrite (shr_fexp_stay _ _ lx N) in *. cbn [fst snd] in *.
      rewrite shr_record_of_loc_m.
      pose proof (round_nearest_even_bounds (Zpos mx)
                    (loc_of_shr_record (shr_record_of_loc (Zpos mx) lx))) as [B1 B2].
      destruct (round_nearest_even _ _) as [|m1|m1] eqn:R; try lia.
      exists m1, ex. repeat split; try assumption.
      assert (d - 1 < Zpos (digits2_pos m1)) by (apply digits_gt; lia). lia.
    - destruct (shr_fexp_shift (Zpos mx) ex lx ltac:(lia) N) as (E1 & E2 & E3 & E4).
      simpl Zdigits2 in *. fold d in N, E1, E2, E4, H.
      set (n := fexp (d + ex) - ex) in *.
      destruct H as [H|H]; [lia|]. specialize (E4 H).
      pose proof (round_weight_pos _ E3 E4) as R1.
      pose proof (round_nearest_even_bounds
                    (shr_m (fst (shr_fexp prec emax (Zpos mx) ex lx)))
                    (loc_of_shr_record (fst (shr_fexp prec emax (Zpos mx) ex lx)))) as [B1 B2].
      destruct (round_nearest_even _ _) as [|m1|m1] eqn:R; try lia.
      exists m1, (ex + n). split; [ rewrite <- E1; apply surjective_pairing | ].
      split; [reflexivity|]. split; [ rewrite <- E1; assumption | ].
      destruct (Z.le_gt_cases n (d - 1)) as [Q|Q].
      + assert (2 ^ (d - 1 - n) <= Zpos mx / 2 ^ n) by (apply div_pow_lower; lia).
        assert (d - 1 - n < Zpos (digits2_pos m1)) by (apply digits_gt; lia). lia.
      + pose proof (Pos2Z.is_pos (digits2_pos m1)). lia. }
  destruct S1 as (m1 & e1 & P1 & P2 & P3 & P4).
  rewrite P1, P2.
  set (d1 := Zpos (digits2_pos m1)) in *.
  pose proof (digits2_pos_bounds m1) as [D1lo D1hi]. fold d1 in D1lo, D1hi.
  (* second shift *)
  assert (S2 : exists m2 e2,
    shr_fexp prec emax (Zpos m1) e1 loc_Exact
      = (fst (shr_fexp prec emax (Zpos m1) e1 loc_Exact), e2) /\
    shr_m (fst (shr_fexp prec emax (Zpos m1) e1 loc_Exact)) = Zpos m2 /\
    emin <= e2 /\ Zpos (digits2_pos m2) <= prec /\
    d1 + e1 <= Zpos (digits2_pos m2) + e2).
  { pose proof (fexp_eq (d1 + e1)) as F.
    destruct (Z.le_gt_cases (fexp (Zdigits2 (Zpos m1) + e1) - e1) 0) as [N|N].
    - rewrite (shr_fexp_stay _ _ loc_Exact N). cbn [fst snd shr_record_of_loc shr_m].
      simpl Zdigits2 in N. fold d1 in N.
      exists m1, e1. repeat split; try assumption; try lia.
    - destruct (shr_fexp_shift (Zpos m1) e1 loc_Exact ltac:(lia) N) as (E1 & E2 & E3 & _).
      simpl Zdigits2 in *. fold d1 in N, E1, E2.
      set (n := fexp (d1 + e1) - e1) in *.
      assert (Hn : n = d1 - prec) by lia.
      assert (L : 2 ^ (d1 - 1 - n) <= Zpos m1 / 2 ^ n) by (apply div_pow_lower; lia).
      assert (U : Zpos m1 / 2 ^ n < 2 ^ (d1 - n)) by (apply div_pow_upper; lia).
      pose proof (pow2_pos (d1 - 1 - n) ltac:(lia)).
      destruct (shr_m (fst (shr_fexp prec emax (Zpos m1) e1 loc_Exact)))
        as [|m2|m2] eqn:M; try lia.
      exists m2, (e1 + n). split; [ rewrite <- E1; apply surjective_pairing | ].
      split; [reflexivity|]. split; [lia|].
      assert (Zpos (digits2_pos m2) <= d1 - n) by (apply digits_le; lia).
      assert (d1 - 1 - n < Zpos (digits2_pos m2)) by (apply digits_gt; lia).
      lia. }
  destruct S2 as (m2 & e2 & Q1 & Q2 & Q3 & Q4 & Q5).
  rewrite Q1, Q2.
  destruct (e2 <=? emax - prec) eqn:B; [ left | right; reflexivity ].
  exists m2, e2. apply Z.leb_le in B. repeat split; try assumption; lia.
Qed.
End Round.

End RoundingShape.

Section PositiveOps.
Local Open Scope Z_scope.


Lemma iter_xO_value : forall k m, Zpos (Pos.iter xO m k) = Zpos m * 2 ^ Zpos k.
Proof.
  induction k as [|k IH] using Pos.peano_ind; intros m.
  - cbn [Pos.iter]. rewrite Pos2Z.inj_xO. change (2 ^ 1) with 2. ring.
  - rewrite Pos.iter_succ, Pos2Z.inj_xO, IH, Pos2Z.inj_succ, Z.pow_succ_r by lia. ring.
Qed.

Lemma iter_xO_digits : forall k m,
  Zpos (digits2_pos (Pos.iter xO m k)) = Zpos (digits2_pos m) + Zpos k.
Proof.
  induction k as [|k IH] using Pos.peano_ind; intros m.
  - simpl. lia.
  - rewrite Pos.iter_succ. simpl digits2_pos. rewrite Pos2Z.inj_succ, IH. lia.
Qed.

Section Ops.
Variables prec emax : Z.
Hypothesis Hprec : 2 <= prec.

Let emin := SpecFloat.emin prec emax.
Let fexp := SpecFloat.fexp prec emax.

Lemma rounds_to_le : forall sx d d' r,
  d <= d' -> rounds_to prec emax sx d' r -> rounds_to prec emax sx d r.
Proof.
  intros sx d d' r H [(m & e & -> & He & Hm & Hd)| -> ]; [left|now right].
  exists m, e. repeat split; try apply He; auto. lia.
Qed.

Lemma binary_round_pos : forall sx mx ex,
  emin <= ex ->
  rounds_to prec emax sx (Zpos (digits2_pos mx) + ex) (binary_round prec emax sx mx ex).
Proof.
  intros sx mx ex He. unfold binary_round, shl_align. fold fexp.
  set (d := Zpos (digits2_pos mx)).
  pose proof (fexp_eq prec emax (d + ex)) as F. fold fexp emin in F.
  pose proof (digits2_pos_bounds mx) as [Dlo Dhi]. fold d in Dlo, Dhi.
  pose proof (Pos2Z.is_pos (digits2_pos mx)) as Dpos. fold d in Dpos.
  destruct (fexp (d + ex) - ex) as [|k|k] eqn:E.
  - apply binary_round_aux_pos; [assumption|]. left. fold fexp d. lia.
  - apply binary_round_aux_pos; [assumption|]. right. fold fexp d. rewrite E.
    assert (Zpos k = d - prec) by lia.
    assert (2 ^ (Zpos k - 1) < 2 ^ (d - 1)) by (apply Z.pow_lt_mono_r; lia). lia.
  - apply rounds_to_le
      with (d' := Zpos (digits2_pos (Pos.iter xO mx k)) + fexp (d + ex)).
    + rewrite iter_xO_digits. fold d. lia.
    + apply binary_round_aux_pos; [assumption|]. left. fold fexp.
      rewrite iter_xO_digits. fold d.
      replace (d + Zpos k + fexp (d + ex)) with (d + ex) by lia. lia.
Qed.



Lemma rounds_to_pos_ok : forall d r, rounds_to prec emax false d r -> pos_ok prec emax r.
Proof.
  intros d r [(m & e & -> & He & _)| -> ]; simpl; [ apply He | exact I ].
Qed.

(** multiplication by a constant above one half keeps a positive number positive *)
Lemma SFmul_pos_const : forall x mc ec,
  pos_ok prec emax x -> 0 <= - ec - 1 -> 2 ^ (- ec - 1) < Zpos mc ->
  pos_ok prec emax (SFmul prec emax x (S754_finite false mc ec)).
Proof.
  intros [| [] | |[] mx ex] mc ec Hx Hec Hmc; simpl in Hx; try contradiction.
  - exact I.
  - cbn [SFmul xorb].
    apply rounds_to_pos_ok with (d := Zpos (digits2_pos (mx * mc)) + (ex + ec)).
    apply binary_round_aux_pos; [assumption|]. fold fexp.
    set (d := Zpos (digits2_pos (mx * mc))).
    pose proof (fexp_eq prec emax (d + (ex + ec))) as F. fold fexp emin in F.
    pose proof (digits2_pos_bounds (mx * mc)) as [Dlo Dhi]. fold d in Dlo, Dhi.
    pose proof (Pos2Z.is_pos (digits2_pos (mx * mc))) as Dpos. fold d in Dpos.
    destruct (Z.le_gt_cases (fexp (d + (ex + ec)) - (ex + ec)) 0) as [N|N]; [now left|right].
    assert (Hm : Zpos mc <= Zpos (mx * mc)) by (rewrite Pos2Z.inj_mul; nia).
    destruct (Z.le_gt_cases (d + (ex + ec) - prec) emin) as [C|C].
    + assert (fexp (d + (ex + ec)) - (ex + ec) - 1 <= - ec - 1) by lia.
      assert (2 ^ (fexp (d + (ex + ec)) - (ex + ec) - 1) <= 2 ^ (- ec - 1))
        by (apply Z.pow_le_mono_r; lia).
      lia.
    + assert (fexp (d + (ex + ec)) - (ex + ec) - 1 < d - 1) by lia.
      assert (2 ^ (fexp (d + (ex + ec)) - (ex + ec) - 1) < 2 ^ (d - 1))
        by (apply Z.pow_lt_mono_r; lia).
      lia.
Qed.



Lemma binary_round_aux_sign : forall sx mx ex lx,
  binary_round_aux prec emax sx (Zpos mx) ex lx = S754_zero sx \/
  binary_round_aux prec emax sx (Zpos mx) ex lx = S754_infinity sx \/
  exists m e, binary_round_aux prec emax sx (Zpos mx) ex lx = S754_finite sx m e
              /\ emin <= e.
Proof.
  intros sx mx ex lx. unfold binary_round_aux.
  pose proof (shr_fexp_nonneg prec emax (Zpos mx) ex lx ltac:(lia)) as H1.
  destruct (shr_fexp prec emax (Zpos mx) ex lx) as [r1 e1]. cbn [fst] in H1.
  pose proof (shr_fexp_exp prec emax
                (round_nearest_even (shr_m r1) (loc_of_shr_record r1)) e1 loc_Exact) as He.
  pose proof (shr_fexp_nonneg prec emax _ e1 loc_Exact
                (round_nearest_even_nonneg _ (loc_of_shr_record r1) H1)) as H2.
  destruct (shr_fexp prec emax _ e1 loc_Exact) as [r2 e2]. cbn [fst snd] in He, H2.
  destruct (shr_m r2) as [|m|m] eqn:M; try lia.
  - now left.
  - destruct (e2 <=? emax - prec); [ right; right; exists m, e2; split; auto | right; now left ].
Qed.
End Ops.

End PositiveOps.

Section PositiveOps2.
Local Open Scope Z_scope.


Section Ops2.
Variables prec emax : Z.
Hypothesis Hprec : 2 <= prec.
Hypothesis Hemax : prec < emax.

Let emin := SpecFloat.emin prec emax.
Let fexp := SpecFloat.fexp prec emax.

Lemma SFadd_pos : forall x y,
  pos_ok prec emax x -> nonneg_ok prec emax y -> pos_ok prec emax (SFadd prec emax x y).
Proof.
  intros [| [] | |[] mx ex] y Hx Hy; simpl in Hx; try contradiction.
  - destruct y as [[]|[]| |[] my ey]; simpl in Hy; try contradiction; exact I.
  - destruct y as [[]|[]| |[] my ey]; simpl in Hy; try contradiction.
    + exact Hx.
    + exact I.
    + cbn [SFadd cond_Zopp].
      set (ez := Z.min ex ey).
      change (Zpos (fst (shl_align mx ex ez)) + Zpos (fst (shl_align my ey ez)))
        with (Zpos (fst (shl_align mx ex ez) + fst (shl_align my ey ez))).
      cbn [binary_normalize].
      eapply rounds_to_pos_ok. apply binary_round_pos; [assumption|].
      fold emin. unfold ez. lia.
Qed.

Lemma of_Z_pos : forall n, 1 <= n ->
  of_Z prec emax n = S754_infinity false \/
  exists m e, of_Z prec emax n = S754_finite false m e /\
              1 <= Zpos (digits2_pos m) + e.
Proof.
  intros n Hn. destruct n as [|p|p]; try lia.
  unfold of_Z. cbn [binary_normalize].
  destruct (binary_round_pos prec emax Hprec false p 0) as [(m & e & E & _ & _ & Hd)| E].
  - unfold SpecFloat.emin. lia.
  - right. exists m, e. split; [exact E|]. pose proof (Pos2Z.is_pos (digits2_pos p)). lia.
  - now left.
Qed.

Lemma div_eucl_fst : forall a b q r, Z.div_eucl a b = (q, r) -> q = a / b.
Proof. intros a b q r H. unfold Z.div. now rewrite H. Qed.

Lemma SFdiv_pos : forall m1 e1 m2 e2,
  emin + 2 <= (Zpos (digits2_pos m1) + e1) - (Zpos (digits2_pos m2) + e2) ->
  pos_ok prec emax (SFdiv prec emax (S754_finite false m1 e1) (S754_finite false m2 e2)).
Proof.
  intros m1 e1 m2 e2 HK. cbn [SFdiv xorb]. unfold SFdiv_core_binary.
  cbn [Zdigits2]. fold fexp.
  set (d1 := Zpos (digits2_pos m1)) in *. set (d2 := Zpos (digits2_pos m2)) in *.
  set (K := d1 + e1 - (d2 + e2)) in *.
  pose proof (fexp_eq prec emax K) as F. fold fexp emin in F.
  pose proof (digits2_pos_bounds m1) as [D1lo D1hi]. fold d1 in D1lo, D1hi.
  pose proof (digits2_pos_bounds m2) as [D2lo D2hi]. fold d2 in D2lo, D2hi.
  pose proof (Pos2Z.is_pos (digits2_pos m1)) as D1pos. fold d1 in D1pos.
  pose proof (Pos2Z.is_pos (digits2_pos m2)) as D2pos. fold d2 in D2pos.
  set (e' := Z.min (fexp K) (e1 - e2)).
  set (s := e1 - e2 - e').
  assert (Hs : 0 <= s) by (unfold s, e'; lia).
  set (a := K - 1 - e').
  assert (Ha : 1 <= a) by (unfold a, e'; lia).
  assert (Had : a + d2 = d1 - 1 + s) by (unfold a, s, K; lia).
  clearbody s.
  set (m' := match s with Zpos _ => Z.shiftl (Zpos m1) s | Z0 => Zpos m1 | Zneg _ => 0 end).
  assert (Hm' : m' = Zpos m1 * 2 ^ s).
  { unfold m'. destruct s; try lia. now rewrite Z.shiftl_mul_pow2 by lia. }
  clearbody m'.
  assert (Hq : 2 ^ a <= m' / Zpos m2).
  { apply Z.div_le_lower_bound; [lia|].
    assert (2 ^ a * 2 ^ d2 = 2 ^ (d1 - 1) * 2 ^ s)
      by (rewrite <- !Z.pow_add_r by lia; f_equal; lia).
    assert (0 < 2 ^ a) by (apply Z.pow_pos_nonneg; lia).
    assert (0 < 2 ^ s) by (apply Z.pow_pos_nonneg; lia).
    rewrite Hm'. nia. }
  destruct (Z.div_eucl m' (Zpos m2)) as [q r] eqn:Eq.
  apply div_eucl_fst in Eq. rewrite <- Eq in Hq.
  assert (0 < 2 ^ a) by (apply Z.pow_pos_nonneg; lia).
  destruct q as [|pq|pq]; try lia.
  apply rounds_to_pos_ok with (d := Zpos (digits2_pos pq) + e').
  apply binary_round_aux_pos; [assumption|]. fold fexp.
  set (dq := Zpos (digits2_pos pq)).
  pose proof (fexp_eq prec emax (dq + e')) as Fq. fold fexp emin in Fq.
  pose proof (digits2_pos_bounds pq) as [Qlo Qhi]. fold dq in Qlo, Qhi.
  assert (a < dq) by (apply digits_gt; lia).
  destruct (Z.le_gt_cases (fexp (dq + e') - e') 0) as [N|N]; [now left|right].
  destruct (Z.le_gt_cases emin (dq + e' - prec)) as [C|C].
  - assert (2 ^ (fexp (dq + e') - e' - 1) < 2 ^ (dq - 1))
      by (apply Z.pow_lt_mono_r; lia).
    lia.
  - assert (2 ^ (fexp (dq + e') - e' - 1) < 2 ^ a)
      by (apply Z.pow_lt_mono_r; unfold a; lia).
    lia.
Qed.
End Ops2.

End PositiveOps2.

Section NoOverflow.
Local Open Scope Z_scope.


Lemma Zdigits2_le : forall m k, 0 <= m -> 0 <= k -> m < 2 ^ k -> Zdigits2 m <= k.
Proof.
  intros [|p|p] k Hm Hk H; simpl; try lia. now apply digits_le.
Qed.

Lemma shl_align_value : forall m e ez, ez <= e ->
  Zpos (fst (shl_align m e ez)) = Zpos m * 2 ^ (e - ez).
Proof.
  intros m e ez H. unfold shl_align.
  destruct (ez - e) as [|k|k] eqn:K; cbn [fst]; try lia.
  - replace (e - ez) with 0 by lia. rewrite Z.pow_0_r. lia.
  - rewrite iter_xO_value. f_equal. f_equal. lia.
Qed.


Section Overflow.
Variables prec emax : Z.
Hypothesis Hprec : 2 <= prec.
Hypothesis Hemax : prec < emax.

Let emin := SpecFloat.emin prec emax.
Let fexp := SpecFloat.fexp prec emax.

(** the exponent an exact rounding ends with *)
Lemma binary_round_aux_exponent : forall sx mx ex,
  let n := fexp (Zpos (digits2_pos mx) + ex) - ex in
  let E := Z.max ex (fexp (Zpos (digits2_pos mx) + ex)) in
  exists m1 e2,
    0 <= m1 <= Zpos mx / 2 ^ Z.max 0 n + 1 /\
    (n <= 0 -> m1 = Zpos mx) /\
    (m1 < 2 ^ prec -> e2 = E) /\
    (m1 <= 2 ^ prec -> e2 <= E + 1) /\
    (binary_round_aux prec emax sx (Zpos mx) ex loc_Exact = S754_infinity sx ->
     emax - prec < e2).
Proof.
  intros sx mx ex n E. unfold binary_round_aux.
  set (d := Zpos (digits2_pos mx)) in *.
  pose proof (fexp_eq prec emax (d + ex)) as F. fold fexp emin in F.
  (* first shift *)
  assert (S1 : exists m1,
    shr_fexp prec emax (Zpos mx) ex loc_Exact
      = (fst (shr_fexp prec emax (Zpos mx) ex loc_Exact), E) /\
    round_nearest_even (shr_m (fst (shr_fexp prec emax (Zpos mx) ex loc_Exact)))
      (loc_of_shr_record (fst (shr_fexp prec emax (Zpos mx) ex loc_Exact))) = m1 /\
    0 <= m1 <= Zpos mx / 2 ^ Z.max 0 n + 1 /\ (n <= 0 -> m1 = Zpos mx) /\ emin <= E).
  { pose proof (shr_fexp_exp prec emax (Zpos mx) ex loc_Exact) as He. fold emin in He.
    destruct (Z.le_gt_cases n 0) as [N|N].
    - rewrite (shr_fexp_stay prec emax (Zpos mx) ex loc_Exact N) in *.
      cbn [fst snd shr_record_of_loc shr_m loc_of_shr_record round_nearest_even] in *.
      exists (Zpos mx). replace E with ex by (unfold E; fold d; lia).
      replace (Z.max 0 n) with 0 by lia. rewrite Z.pow_0_r, Z.div_1_r.
      repeat split; auto; lia.
    - destruct (shr_fexp_shift prec emax (Zpos mx) ex loc_Exact ltac:(lia) N)
        as (E1 & E2 & E3 & _).
      cbn [Zdigits2] in E1, E2. fold fexp d n in E1, E2.
      pose proof (round_nearest_even_bounds
        (shr_m (fst (shr_fexp prec emax (Zpos mx) ex loc_Exact)))
        (loc_of_shr_record (fst (shr_fexp prec emax (Zpos mx) ex loc_Exact)))) as [B1 B2].
      eexists. split; [ | split; [reflexivity|] ].
      + replace E with (ex + n) by (unfold E, n; fold d; lia).
        rewrite <- E1. apply surjective_pairing.
      + replace (Z.max 0 n) with n by lia. rewrite <- E2.
        unfold E. fold d. repeat split; lia. }
  destruct S1 as (m1 & P1 & P2 & P3 & P4 & P5).
  rewrite P1, P2.
  exists m1, (snd (shr_fexp prec emax m1 E loc_Exact)).
  split; [assumption|]. split; [assumption|].
  pose proof (fexp_eq prec emax (Zdigits2 m1 + E)) as F1. fold fexp emin in F1.
  split; [ | split ].
  - intros Hm. assert (Zdigits2 m1 <= prec) by (apply Zdigits2_le; lia).
    rewrite shr_fexp_stay; [reflexivity | fold fexp; lia].
  - intros Hm.
    assert (Zdigits2 m1 <= prec + 1).
    { apply Zdigits2_le; try lia. rewrite Z.pow_add_r by lia. change (2 ^ 1) with 2. lia. }
    destruct (Z.le_gt_cases (fexp (Zdigits2 m1 + E) - E) 0) as [N|N].
    + rewrite shr_fexp_stay; [cbn [snd]; lia | exact N].
    + destruct (shr_fexp_shift prec emax m1 E loc_Exact ltac:(lia) N) as (E1 & _).
      rewrite E1. fold fexp. lia.
  - destruct (shr_fexp prec emax m1 E loc_Exact) as [r2 e2]. cbn [snd].
    destruct (shr_m r2); try discriminate.
    destruct (e2 <=? emax - prec) eqn:B; try discriminate.
    intros _. apply Z.leb_gt in B. exact B.
Qed.

(** A difference below a representable number does not overflow. *)
Lemma binary_round_no_overflow : forall sx pM ez m e,
  emin <= ez -> ez <= e -> e <= emax - prec -> Zpos m < 2 ^ prec ->
  Zpos pM < Zpos m * 2 ^ (e - ez) ->
  binary_round prec emax sx pM ez <> S754_infinity sx.
Proof.
  intros sx pM ez m e Hez Hle He Hm HD.
  set (dD := Zpos (digits2_pos pM)).
  pose proof (digits2_pos_bounds pM) as [Dlo Dhi]. fold dD in Dlo, Dhi.
  pose proof (Pos2Z.is_pos (digits2_pos pM)) as Dpos. fold dD in Dpos.
  assert (Hp : 0 < 2 ^ (e - ez)) by (apply Z.pow_pos_nonneg; lia).
  assert (HdD : dD + ez <= prec + e).
  { assert (Zpos pM < 2 ^ (prec + (e - ez)))
      by (rewrite Z.pow_add_r by lia; nia).
    assert (dD <= prec + (e - ez)) by (apply digits_le; assumption). lia. }
  pose proof (fexp_eq prec emax (dD + ez)) as F. fold fexp emin in F.
  assert (Hemin : emin <= emax - prec) by (unfold emin, SpecFloat.emin; lia).
  unfold binary_round, shl_align. fold fexp dD.
  destruct (fexp (dD + ez) - ez) as [|k|k] eqn:K.
  - (* exact, no shift *)
    destruct (binary_round_aux_exponent sx pM ez) as (m1 & e2 & B1 & B2 & B3 & _ & B5).
    fold dD in B2, B3. intros Hinf. specialize (B5 Hinf).
    rewrite (B2 ltac:(lia)) in B3.
    assert (dD <= prec) by lia.
    assert (Zpos pM < 2 ^ prec).
    { assert (2 ^ dD <= 2 ^ prec) by (apply Z.pow_le_mono_r; lia). lia. }
    rewrite (B3 ltac:(assumption)) in B5. lia.
  - (* right shift by dD - prec *)
    destruct (binary_round_aux_exponent sx pM ez) as (m1 & e2 & B1 & _ & B3 & B4 & B5).
    fold dD in B1, B3, B4. rewrite K in B1. intros Hinf. specialize (B5 Hinf).
    replace (Z.max 0 (Zpos k)) with (Zpos k) in B1 by lia.
    assert (Hk : Zpos k = dD - prec) by lia.
    assert (U : Zpos pM / 2 ^ Zpos k < 2 ^ (dD - Zpos k)) by (apply div_pow_upper; lia).
    replace (dD - Zpos k) with prec in U by lia.
    destruct (Z.le_gt_cases (dD + ez) (emax - 1)) as [C|C].
    + specialize (B4 ltac:(lia)). lia.
    + assert (Hk2 : e - ez <= Zpos k) by lia.
      assert (Zpos pM / 2 ^ Zpos k < 2 ^ prec - 1).
      { apply Z.div_lt_upper_bound; [ apply Z.pow_pos_nonneg; lia | ].
        assert (2 ^ (e - ez) <= 2 ^ Zpos k) by (apply Z.pow_le_mono_r; lia).
        nia. }
      rewrite (B3 ltac:(lia)) in B5. lia.
  - (* left shift: the mantissa is aligned on the format *)
    destruct (binary_round_aux_exponent sx (Pos.iter xO pM k) (fexp (dD + ez)))
      as (m1 & e2 & B1 & B2 & B3 & _ & B5).
    rewrite iter_xO_digits in B2, B3. fold dD in B2, B3.
    replace (dD + Zpos k + fexp (dD + ez)) with (dD + ez) in B2, B3 by lia.
    intros Hinf. specialize (B5 Hinf).
    rewrite (B2 ltac:(lia)) in B3.
    pose proof (digits2_pos_bounds (Pos.iter xO pM k)) as [_ Ihi].
    rewrite iter_xO_digits in Ihi. fold dD in Ihi.
    assert (2 ^ (dD + Zpos k) <= 2 ^ prec) by (apply Z.pow_le_mono_r; lia).
    rewrite (B3 ltac:(lia)) in B5. lia.
Qed.
End Overflow.

End NoOverflow.

(** * The reading stays positive *)

Section FPSPositive.
Local Open Scope Z_scope.








Lemma bounded_spec : forall m e, SpecFloat.bounded 53 1024 m e = true ->
  -1074 <= e <= 971 /\ Zpos (digits2_pos m) <= 53.
Proof.
  intros m e H. unfold SpecFloat.bounded, canonical_mantissa in H.
  apply andb_prop in H as [H1 H2]. apply Z.eqb_eq in H1. apply Z.leb_le in H2.
  unfold SpecFloat.fexp, SpecFloat.emin in H1. lia.
Qed.

Lemma pos_ok_positive : forall x, pos_ok 53 1024 x -> positive64 x = true.
Proof. intros [| [] | |[] m e] H; simpl in H; try contradiction; reflexivity. Qed.

Lemma pos_ok_not_zero : forall x, pos_ok 53 1024 x -> SFeqb x (literal 53 1024 0 1) = false.
Proof. intros [| [] | |[] m e] H; simpl in H; try contradiction; reflexivity. Qed.

Lemma prec64 : 2 <= 53. Proof. lia. Qed.
Lemma emax64 : 53 < 1024. Proof. lia. Qed.

Lemma geb_quarter_shape : forall x, geb x (literal 53 1024 1 4) = true ->
  x = S754_infinity false \/ exists m e, x = S754_finite false m e.
Proof.
  intros x. let q := eval vm_compute in (literal 53 1024 1 4) in
            change (literal 53 1024 1 4) with q.
  unfold geb. destruct x as [s|[]| |[] m e]; intros H; try discriminate H.
  - now left.
  - right. now exists m, e.
Qed.

Lemma elapsed_shape : forall t ws,
  clock_reading t = true -> clock_reading ws = true ->
  geb (SFsub 53 1024 t ws) (literal 53 1024 1 4) = true ->
  exists m e, SFsub 53 1024 t ws = S754_finite false m e /\
              Zpos (digits2_pos m) + e <= 1024.
Proof.
  intros t ws Ht Hws Hg.
  destruct (geb_quarter_shape _ Hg) as [Hinf|(m & e & Hfin)].
  - exfalso.
    destruct t as [st| | |[] mx ex]; try discriminate Ht;
    destruct ws as [sw| | |[] my ey]; try discriminate Hws.
    + destruct st, sw; discriminate Hinf.
    + discriminate Hinf.
    + discriminate Hinf.
    + apply bounded_spec in Ht, Hws. cbn [SFsub cond_Zopp] in Hinf.
      set (ez := Z.min ex ey) in *.
      pose proof (shl_align_value mx ex ez ltac:(unfold ez; lia)) as Vx.
      destruct (Zpos (fst (shl_align mx ex ez)) - Zpos (fst (shl_align my ey ez)))
        as [|pM|pM] eqn:M; cbn [binary_normalize] in Hinf.
      * discriminate Hinf.
      * revert Hinf.
        apply (binary_round_no_overflow 53 1024 prec64 emax64 false pM ez mx ex).
        -- unfold SpecFloat.emin, ez. lia.
        -- unfold ez. lia.
        -- lia.
        -- pose proof (digits2_pos_bounds mx) as [_ B].
           assert (2 ^ Zpos (digits2_pos mx) <= 2 ^ 53) by (apply Z.pow_le_mono_r; lia).
           lia.
        -- rewrite <- Vx. lia.
      * destruct (binary_round_pos 53 1024 prec64 true pM ez) as [(m & e & E & _)|E].
        -- unfold SpecFloat.emin, ez. lia.
        -- rewrite E in Hinf. discriminate Hinf.
        -- rewrite E in Hinf. discriminate Hinf.
  - exists m, e. split; [exact Hfin|].
    destruct t as [st| | |[] mx ex]; try discriminate Ht;
    destruct ws as [sw| | |[] my ey]; try discriminate Hws.
    + destruct st, sw; discriminate Hfin.
    + discriminate Hfin.
    + cbn [SFsub] in Hfin. injection Hfin as -> ->.
      apply bounded_spec in Ht. lia.
    + apply bounded_spec in Ht, Hws. cbn [SFsub cond_Zopp] in Hfin.
      set (ez := Z.min ex ey) in *.
      destruct (Zpos (fst (shl_align mx ex ez)) - Zpos (fst (shl_align my ey ez)))
        as [|pM|pM] eqn:M; cbn [binary_normalize] in Hfin.
      * discriminate Hfin.
      * destruct (binary_round_pos 53 1024 prec64 false pM ez) as [(m' & e' & E & B1 & B2 & _)|E].
        -- unfold SpecFloat.emin, ez. lia.
        -- rewrite E in Hfin. injection Hfin as -> ->. lia.
        -- rewrite E in Hfin. discriminate Hfin.
      * destruct (binary_round_pos 53 1024 prec64 true pM ez) as [(m' & e' & E & _)|E].
        -- unfold SpecFloat.emin, ez. lia.
        -- rewrite E in Hfin. discriminate Hfin.
        -- rewrite E in Hfin. discriminate Hfin.
Qed.

Lemma inst_pos : forall n t ws,
  1 <= n -> clock_reading t = true -> clock_reading ws = true ->
  geb (SFsub 53 1024 t ws) (literal 53 1024 1 4) = true ->
  pos_ok 53 1024 (SFdiv 53 1024 (of_Z 53 1024 n) (SFsub 53 1024 t ws)).
Proof.
  intros n t ws Hn Ht Hws Hg.
  destruct (elapsed_shape t ws Ht Hws Hg) as (m2 & e2 & -> & Hd).
  destruct (of_Z_pos 53 1024 prec64 emax64 n Hn) as [-> | (m1 & e1 & -> & H1)].
  - exact I.
  - apply SFdiv_pos; [ exact prec64 | ]. unfold SpecFloat.emin. lia.
Qed.

Lemma SFmul_nonneg_const : forall x mc ec,
  pos_ok 53 1024 x -> nonneg_ok 53 1024 (SFmul 53 1024 x (S754_finite false mc ec)).
Proof.
  intros [| [] | |[] mx ex] mc ec Hx; simpl in Hx; try contradiction.
  - exact I.
  - cbn [SFmul xorb].
    destruct (binary_round_aux_sign 53 1024 false (mx * mc) (ex + ec) loc_Exact)
      as [-> | [-> | (m & e & -> & He)]]; simpl; auto.
Qed.

Lemma ema_pos : forall f g,
  pos_ok 53 1024 f -> pos_ok 53 1024 g ->
  pos_ok 53 1024
    (SFadd 53 1024 (SFmul 53 1024 f (literal 53 1024 9 10))
                   (SFmul 53 1024 g (literal 53 1024 1 10))).
Proof.
  intros f g Hf Hg.
  let c := eval vm_compute in (literal 53 1024 9 10) in change (literal 53 1024 9 10) with c.
  let c := eval vm_compute in (literal 53 1024 1 10) in change (literal 53 1024 1 10) with c.
  apply SFadd_pos; [ exact prec64 | | ].
  - apply SFmul_pos_const; [ exact prec64 | assumption | lia | ].
    vm_compute. reflexivity.
  - now apply SFmul_nonneg_const.
Qed.






Lemma Update_step : forall k t fc,
  fps_inv k fc -> clock_reading t = true -> k + 1 < 2 ^ 63 ->
  fps_inv (k + 1) (snd (Update t fc)) /\
  (closes t fc = true -> warm (snd (Update t fc))) /\
  (warm fc -> warm (snd (Update t fc))).
Proof.
  intros k t fc [Hc Hn Hf] Ht Hk.
  assert (Hincr : int_incr (frameCount fc) = frameCount fc + 1)
    by (apply int_incr_no_wrap; lia).
  destruct (closes t fc) eqn:C; unfold closes in C.
  - rewrite (Update_closing (FL:=ieee) t fc C). cbv zeta. cbn [snd].
    assert (W : warm (mkFPS t 0
      (if f_eq (fps fc) (lit64 0 1)
       then f64_div (f64_of_int (int_incr (frameCount fc))) (f64_sub t (lastUpdate fc))
       else f64_add (f64_mul (fps fc) (lit64 9 10))
              (f64_mul (f64_div (f64_of_int (int_incr (frameCount fc)))
                                (f64_sub t (lastUpdate fc))) (lit64 1 10))))).
    { unfold warm; cbn [fps].
      assert (I : pos_ok 53 1024
                (f64_div (f64_of_int (int_incr (frameCount fc)))
                         (f64_sub t (lastUpdate fc)))).
      { apply inst_pos; auto. lia. }
      destruct Hf as [Hz|Hw].
      - rewrite Hz. exact I.
      - change (@f_eq _ ieee) with SFeqb. change (@lit64 _ ieee 0 1) with (literal 53 1024 0 1).
        rewrite (pos_ok_not_zero _ Hw). apply ema_pos; assumption. }
    split; [ split; cbn [lastUpdate frameCount fps]; auto; lia | split; auto ].
  - rewrite (Update_waiting (FL:=ieee) t fc C). cbn [snd].
    split; [ split; cbn [lastUpdate frameCount fps]; auto; lia | split; [discriminate|] ].
    unfold warm; cbn [fps]; auto.
Qed.

Lemma warm_no_seed : forall t fc, warm fc -> seeds t fc = false.
Proof.
  intros t fc H. unfold seeds.
  change (@f_eq _ ieee) with SFeqb. change (@lit64 _ ieee 0 1) with (literal 53 1024 0 1).
  rewrite (pos_ok_not_zero _ H). apply andb_false_r.
Qed.

Lemma history_warm : forall times k fc,
  fps_inv k fc -> Forall (fun t => clock_reading t = true) times ->
  k + Z.of_nat (length times) < 2 ^ 63 ->
  (warm fc -> Forall (fun bs => warm (snd bs)) (history times fc)) /\
  (forall pre s post, history times fc = pre ++ (true, s) :: post ->
     warm s /\ Forall (fun bs => warm (snd bs)) post) /\
  (warm fc -> seedings times fc = 0%nat) /\
  (seedings times fc <= 1)%nat.
Proof.
  induction times as [|t rest IH]; intros k fc Hinv Hclk Hlen.
  - split; [ | split; [ | split ] ]; simpl; auto.
    intros [|p pre] s post H; discriminate H.
  - inversion Hclk as [|? ? Ht Hrest]; subst.
    cbn [length] in Hlen. rewrite Nat2Z.inj_succ in Hlen.
    destruct (Update_step k t fc Hinv Ht ltac:(lia)) as (I' & Wc & Ww).
    destruct (IH (k + 1) (snd (Update t fc)) I' Hrest ltac:(lia)) as (A1 & A2 & A3 & A4).
    cbn [history seedings]. split; [ | split; [ | split ] ].
    + intros W. constructor; [ cbn [snd]; auto | auto ].
    + intros pre s post H.
      destruct pre as [|p pre]; cbn [app] in H; injection H as H1 H2.
      * subst s post. split; [ now apply Wc | apply A1; now apply Wc ].
      * exact (A2 pre s post H2).
    + intros W. rewrite (warm_no_seed t fc W). rewrite A3; auto.
    + destruct (seeds t fc) eqn:S.
      * unfold seeds in S. apply andb_prop in S as [S1 _].
        rewrite A3; auto.
      * simpl. exact A4.
Qed.

End FPSPositive.

(** C10.  For a counter created at a clock reading and
    updated at clock readings (binary64 numbers that are not negative), fewer
    than [2^63] times: once a call has closed a window, [fps] is strictly
    positive after that call and after every later one; so the branch that
    stores the first reading is taken at most once.  The readings need not
    increase. *)
Theorem reading_stays_positive :
  forall (t0 : spec_float) (times : list spec_float),
    clock_reading t0 = true ->
    Forall (fun t => clock_reading t = true) times ->
    (Z.of_nat (length times) < 2 ^ 63)%Z ->
    (forall pre s post,
       history times (NewFPSCounter t0) = pre ++ (true, s) :: post ->
       positive64 (fps s) = true /\
       Forall (fun bs => positive64 (fps (snd bs)) = true) post) /\
    (seedings times (NewFPSCounter t0) <= 1)%nat.
Proof.
  intros t0 times H0 Ht Hlen.
  assert (I0 : fps_inv 0 (NewFPSCounter t0)).
  { split; cbn [NewFPSCounter lastUpdate frameCount fps]; auto; try lia. }
  destruct (history_warm times 0 (NewFPSCounter t0) I0 Ht ltac:(lia))
    as (_ & A2 & _ & A4).
  split; [ | exact A4 ].
  intros pre s post H. destruct (A2 pre s post H) as [W1 W2]. split.
  - now apply pos_ok_positive.
  - apply Forall_impl with (P := fun bs => warm (snd bs)); [ | exact W2 ].
    intros bs W. now apply pos_ok_positive.
Qed.

Lemma demo_times_are_clock_readings :
  Forall (fun t => clock_reading t = true) demo_times.
Proof.
  apply Forall_forall. intros t Hin.
  assert (H : forallb clock_reading demo_times = true) by (vm_compute; reflexivity).
  rewrite forallb_forall in H. now apply H.
Qed.

Lemma reading_stays_positive_witness :
  (clock_reading (literal 53 1024 0 1) = true /\
   Forall (fun t => clock_reading t = true) demo_times /\
   (Z.of_nat (length demo_times) < 2 ^ 63)%Z) /\
  (seedings demo_times (NewFPSCounter (literal 53 1024 0 1)) <= 1)%nat.
Proof.
  assert (H0 : clock_reading (literal 53 1024 0 1) = true) by reflexivity.
  assert (H2 : (Z.of_nat (length demo_times) < 2 ^ 63)%Z) by (vm_compute; reflexivity).
  split; [ split; [ exact H0 | split; [ exact demo_times_are_clock_readings | exact H2 ] ] | ].
  exact (proj2 (reading_stays_positive (literal 53 1024 0 1) demo_times
                  H0 demo_times_are_clock_readings H2)).
Defined.

(** Beyond the clock's range: the finite, strictly increasing readings
    [-2^1023 < 2^1023 < 2^1023 (1 + 2^-52)] close a window with the elapsed
    time overflowing to infinity, so that [fps] is [1/inf = 0] after the
    window closed, and the next call takes the first-reading branch again. *)
Lemma reading_zero_after_overflow :
  let fc := NewFPSCounter far_past in
  SFltb far_past far_future = true /\ SFltb far_future far_future' = true /\
  map fst (history [far_future; far_future'] fc) = [true; true] /\
  map (fun bs => positive64 (fps (snd bs))) (history [far_future; far_future'] fc)
    = [false; true] /\
  seedings [far_future; far_future'] fc = 2%nat.
Proof. vm_compute. repeat split; reflexivity. Qed.

(** * Further properties of the camera, the counter and the render loop *)

Section LoopFacts.
Context {F : Type} {FL : Float F} {LM : Libm F}.

Lemma set_Position_same : forall c : Camera (F:=F), set_Position c (Position c) = c.
Proof. intros []; reflexivity. Qed.

Lemma basis_current_NewCamera : basis_current NewCamera.
Proof. rewrite NewCamera_eq. repeat split. Qed.

Lemma basis_current_set_Position : forall (c : Camera (F:=F)) p,
  basis_current c -> basis_current (set_Position c p).
Proof. intros [] p H. exact H. Qed.

Lemma basis_current_tracked : forall (c : Camera) x y, basis_current (tracked c x y).
Proof. intros. rewrite tracked_eq. repeat split. Qed.

Lemma basis_current_HandleMouseMovement : forall (c : Camera) x y,
  basis_current c -> basis_current (HandleMouseMovement c x y).
Proof.
  intros c x y H. destruct (firstMouse c) eqn:E.
  - rewrite HandleMouseMovement_first by assumption. exact H.
  - rewrite HandleMouseMovement_tracking by assumption. apply basis_current_tracked.
Qed.

Lemma basis_current_cursorCallback : forall (c : Camera) x y,
  basis_current (cursorCallback c x y).
Proof.
  intros c x y. destruct (firstMouse c) eqn:E.
  - rewrite cursorCallback_first by assumption. apply basis_current_tracked.
  - rewrite cursorCallback_tracking by assumption. apply basis_current_tracked.
Qed.

Lemma basis_current_mainMovement : forall (c : Camera) w dt,
  basis_current c -> basis_current (mainMovement c w dt).
Proof.
  intros. rewrite mainMovement_moved. now apply basis_current_set_Position.
Qed.

Lemma basis_current_HandleKeyboard : forall (c : Camera) w dt,
  basis_current c -> basis_current (HandleKeyboard c w dt).
Proof.
  intros. rewrite HandleKeyboard_moved. now apply basis_current_set_Position.
Qed.

Lemma mainLoop_invariant (P : MainState -> Prop) :
  (forall st i, P st -> P (mainIteration st i)) ->
  forall inputs st, P st -> P (mainLoop inputs st).
Proof.
  intros Hstep; induction inputs as [|i rest IH]; intros st Hst; cbn [mainLoop]; auto.
  destruct (shouldClose st); auto.
Qed.

Lemma mainTrace_invariant (P : MainState -> Prop) (Q : FrameInput -> Prop) :
  (forall st i, P st -> Q i -> P (mainIteration st i)) ->
  forall inputs st, P st -> Forall Q inputs -> Forall P (mainTrace inputs st).
Proof.
  intros Hstep; induction inputs as [|i rest IH]; intros st Hst HQ; cbn [mainTrace].
  - constructor.
  - inversion HQ; subst. destruct (shouldClose st); constructor; auto.
Qed.

Lemma feed_invariant_on (P : Camera -> Prop) (Q : F * F -> Prop)
      (h : Camera (F:=F) -> F -> F -> Camera (F:=F)) :
  (forall c s, P c -> Q s -> P (h c (fst s) (snd s))) ->
  forall samples c, P c -> Forall Q samples -> P (feed h samples c).
Proof.
  intros Hstep; induction samples as [|s rest IH]; intros c Hc HQ.
  - now rewrite feed_nil.
  - rewrite feed_cons. inversion HQ; subst. apply IH; auto.
Qed.

Lemma shouldClose_mainIteration : forall st i,
  shouldClose (mainIteration st i) = closing i || shouldClose st.
Proof.
  intros st i. unfold closing. cbn [mainIteration shouldClose].
  destruct (escape i), (closeRequested i), (shouldClose st); reflexivity.
Qed.

Lemma camera_mainIteration : forall st i,
  camera (mainIteration st i) =
  feed cursorCallback (cursor i) (mainMovement (camera st) (keys i)
                                    (f64_sub (now_frame i) (lastFrame st))).
Proof. reflexivity. Qed.

Lemma feed_frame : forall (h : Camera (F:=F) -> F -> F -> Camera (F:=F)) samples (c : Camera),
  (forall c x y, Position (h c x y) = Position c /\
                 MovementSpeed (h c x y) = MovementSpeed c /\
                 MouseSens (h c x y) = MouseSens c /\
                 WorldUp (h c x y) = WorldUp c) ->
  Position (feed h samples c) = Position c /\
  MovementSpeed (feed h samples c) = MovementSpeed c /\
  MouseSens (feed h samples c) = MouseSens c /\
  WorldUp (feed h samples c) = WorldUp c.
Proof.
  intros h samples c Hh. revert c.
  induction samples as [|s rest IH]; intros c.
  - rewrite feed_nil. repeat split.
  - rewrite feed_cons.
    destruct (IH (h c (fst s) (snd s))) as (A & B & C & D).
    destruct (Hh c (fst s) (snd s)) as (A' & B' & C' & D').
    repeat split; congruence.
Qed.

Lemma HandleMouseMovement_frame : forall (c : Camera) x y,
  Position (HandleMouseMovement c x y) = Position c /\
  MovementSpeed (HandleMouseMovement c x y) = MovementSpeed c /\
  MouseSens (HandleMouseMovement c x y) = MouseSens c /\
  WorldUp (HandleMouseMovement c x y) = WorldUp c.
Proof.
  intros c x y. destruct (firstMouse c) eqn:E.
  - rewrite HandleMouseMovement_first by assumption. repeat split.
  - rewrite HandleMouseMovement_tracking, tracked_eq by assumption. repeat split.
Qed.

Lemma cursorCallback_frame : forall (c : Camera) x y,
  Position (cursorCallback c x y) = Position c /\
  MovementSpeed (cursorCallback c x y) = MovementSpeed c /\
  MouseSens (cursorCallback c x y) = MouseSens c /\
  WorldUp (cursorCallback c x y) = WorldUp c.
Proof.
  intros c x y. destruct (firstMouse c) eqn:E.
  - rewrite cursorCallback_first, tracked_eq by assumption. repeat split.
  - rewrite cursorCallback_tracking, tracked_eq by assumption. repeat split.
Qed.

Lemma HandleMouseMovement_baseline : forall (c : Camera) x y,
  lastX (HandleMouseMovement c x y) = x /\ lastY (HandleMouseMovement c x y) = y.
Proof.
  intros c x y. destruct (firstMouse c) eqn:E.
  - rewrite HandleMouseMovement_first by assumption. split; reflexivity.
  - rewrite HandleMouseMovement_tracking, tracked_eq by assumption. split; reflexivity.
Qed.

Lemma cursorCallback_baseline : forall (c : Camera) x y,
  lastX (cursorCallback c x y) = x /\ lastY (cursorCallback c x y) = y.
Proof.
  intros c x y. destruct (firstMouse c) eqn:E.
  - rewrite cursorCallback_first, tracked_eq by assumption. split; reflexivity.
  - rewrite cursorCallback_tracking, tracked_eq by assumption. split; reflexivity.
Qed.

Lemma feed_baseline : forall (h : Camera (F:=F) -> F -> F -> Camera (F:=F)),
  (forall c x y, lastX (h c x y) = x /\ lastY (h c x y) = y) ->
  forall samples (c : Camera) s,
    lastX (feed h (samples ++ [s]) c) = fst s /\
    lastY (feed h (samples ++ [s]) c) = snd s.
Proof.
  intros h Hh. induction samples as [|s0 rest IH]; intros c s.
  - cbn [app]. rewrite feed_cons, feed_nil. apply Hh.
  - cbn [app]. rewrite feed_cons. apply IH.
Qed.

Lemma mainMovement_idle : forall (c : Camera) w dt,
  (forall k, w k = false) -> mainMovement c w dt = c.
Proof.
  intros c w dt H. rewrite mainMovement_moved. unfold moved.
  rewrite !H. apply set_Position_same.
Qed.

Lemma HandleKeyboard_idle : forall (c : Camera) w dt,
  (forall k, w k = false) -> HandleKeyboard c w dt = c.
Proof.
  intros c w dt H. rewrite HandleKeyboard_moved. unfold moved.
  rewrite !H. apply set_Position_same.
Qed.

Lemma run_updates_cons : forall t rest (fc : FPSCounter),
  run_updates (t :: rest) fc =
  (fst (Update t fc) :: fst (run_updates rest (snd (Update t fc))),
   snd (run_updates rest (snd (Update t fc)))).
Proof.
  intros. cbn [run_updates].
  destruct (Update t fc) as [v fc']. cbn [fst snd].
  destruct (run_updates rest fc') as [vs fc'']. reflexivity.
Qed.
End LoopFacts.

(** X1.  In every state the render loop reaches, from the state [main] sets
    up and whatever the clock, the keys and the cursor deliver, the camera's
    [Front], [Right] and [Up] are the vectors [updateCameraVectors] derives
    from its current yaw, pitch and world-up vector: no path through the loop
    leaves a stale basis. *)
Theorem render_loop_basis_current :
  forall (F : Type) (FL : Float F) (LM : Libm F) (now : F) (inputs : list FrameInput),
    Forall (fun st => basis_current (camera st)) (mainTrace inputs (mainInit now)) /\
    basis_current (camera (mainLoop inputs (mainInit now))).
Proof.
  intros F FL LM now inputs.
  assert (Hstep : forall st (i : FrameInput),
            basis_current (camera st) -> True ->
            basis_current (camera (mainIteration st i))).
  { intros st i H _. rewrite camera_mainIteration.
    apply (feed_invariant basis_current cursorCallback).
    - intros; apply basis_current_cursorCallback.
    - now apply basis_current_mainMovement. }
  assert (H0 : basis_current (camera (mainInit now))).
  { cbn [mainInit camera]. apply basis_current_set_Position, basis_current_NewCamera. }
  split.
  - apply (mainTrace_invariant (fun st => basis_current (camera st)) (fun _ => True));
      auto using Forall_True.
  - apply (mainLoop_invariant (fun st => basis_current (camera st))); auto.
Qed.

(** X2.  Each operation on a camera keeps the derived basis current: if
    [Front], [Right] and [Up] agree with yaw, pitch and world-up before
    [HandleMouseMovement], the callback of [main], [HandleKeyboard] or the
    movement block of [main], they agree afterwards. *)
Theorem handlers_keep_basis_current :
  forall (F : Type) (FL : Float F) (LM : Libm F)
         (c : Camera) (x y : F) (w : Window) (dt : F),
    basis_current c ->
    basis_current (HandleMouseMovement c x y) /\
    basis_current (cursorCallback c x y) /\
    basis_current (HandleKeyboard c w dt) /\
    basis_current (mainMovement c w dt).
Proof.
  intros F FL LM c x y w dt H. split; [ | split; [ | split ] ].
  - apply (basis_current_HandleMouseMovement c x y H).
  - apply basis_current_cursorCallback.
  - apply (basis_current_HandleKeyboard c w dt H).
  - apply (basis_current_mainMovement c w dt H).
Qed.

Lemma handlers_keep_basis_current_witness :
  basis_current (LM:=series_libm) demo_camera /\
  (basis_current (LM:=series_libm)
                 (HandleMouseMovement (LM:=series_libm) demo_camera
                    (lit64 400 1) (lit64 300 1)) /\
   basis_current (LM:=series_libm)
                 (cursorCallback (LM:=series_libm) demo_camera
                    (lit64 400 1) (lit64 300 1)) /\
   basis_current (LM:=series_libm)
                 (HandleKeyboard demo_camera (pressing [KeyW]) (lit64 1 60)) /\
   basis_current (LM:=series_libm)
                 (mainMovement demo_camera (pressing [KeyW]) (lit64 1 60))).
Proof.
  assert (H : basis_current (LM:=series_libm) demo_camera)
    by (vm_compute; split; [ | split ]; reflexivity).
  split; [ exact H | ].
  exact (handlers_keep_basis_current spec_float ieee series_libm demo_camera
           (lit64 400 1) (lit64 300 1) (pressing [KeyW]) (lit64 1 60) H).
Defined.

(** X3.  What the cursor handlers never touch, and what they always leave:
    after any non-empty sequence of samples, given to [HandleMouseMovement]
    or to the callback of [main], the camera's position, movement speed,
    mouse sensitivity and world-up vector are what they were, the
    first-sample flag is cleared, and the stored cursor position is the last
    sample. *)
Theorem cursor_handlers_frame :
  forall (F : Type) (FL : Float F) (LM : Libm F)
         (samples : list (F * F)) (s : F * F) (c : Camera),
    let after (h : Camera -> F -> F -> Camera) := feed h (samples ++ [s]) c in
    let kept (c' : Camera) :=
      Position c' = Position c /\
      MovementSpeed c' = MovementSpeed c /\
      MouseSens c' = MouseSens c /\
      WorldUp c' = WorldUp c /\
      firstMouse c' = false /\
      lastX c' = fst s /\
      lastY c' = snd s in
    kept (after HandleMouseMovement) /\ kept (after cursorCallback).
Proof.
  intros F FL LM samples s c after kept.
  assert (Hgen : forall h : Camera -> F -> F -> Camera,
            (forall c x y,
               Position (h c x y) = Position c /\
               MovementSpeed (h c x y) = MovementSpeed c /\
               MouseSens (h c x y) = MouseSens c /\
               WorldUp (h c x y) = WorldUp c) ->
            (forall c x y, lastX (h c x y) = x /\ lastY (h c x y) = y) ->
            (forall c x y, firstMouse (h c x y) = false) ->
            kept (after h)).
  { intros h Hframe Hbase Hflag. unfold kept, after.
    destruct (feed_frame h (samples ++ [s]) c Hframe) as (A & B & C & D).
    destruct (feed_baseline h Hbase samples c s) as (X & Y).
    repeat (split; [ assumption | ]). split; [ | split; assumption ].
    clear - Hflag. revert c. induction samples as [|s0 rest IH]; intros c; cbn [app].
    - rewrite feed_cons, feed_nil. apply Hflag.
    - rewrite feed_cons. apply IH. }
  split; apply Hgen.
  - apply HandleMouseMovement_frame.
  - apply HandleMouseMovement_baseline.
  - apply HandleMouseMovement_clears_flag.
  - apply cursorCallback_frame.
  - apply cursorCallback_baseline.
  - apply cursorCallback_clears_flag.
Qed.

(** X4.  The camera moves only on a key: while none of W, S, A, D is down,
    the render loop leaves the position where [main] placed it, [(0, 0, 15)],
    in every state it reaches, whatever the clock reads (NaN included) and
    however the cursor moves. *)
Theorem render_loop_idle_position :
  forall (F : Type) (FL : Float F) (LM : Libm F) (now : F) (inputs : list FrameInput),
    Forall (fun i => forall k, keys i k = false) inputs ->
    Forall (fun st => Position (camera st) = mkVec3 (lit32 0 1) (lit32 0 1) (lit32 15 1))
           (mainTrace inputs (mainInit now)).
Proof.
  intros F FL LM now inputs Hidle.
  apply (mainTrace_invariant
           (fun st => Position (camera st) = mkVec3 (lit32 0 1) (lit32 0 1) (lit32 15 1))
           (fun i => forall k, keys i k = false)); [ | | exact Hidle ].
  - intros st i Hst Hi. rewrite camera_mainIteration.
    rewrite mainMovement_idle by assumption.
    destruct (feed_frame cursorCallback (cursor i) (camera st) cursorCallback_frame)
      as (A & _). now rewrite A.
  - cbn [mainInit camera]. rewrite NewCamera_eq. reflexivity.
Qed.

(** X5.  The loop ends with the first frame on which escape is down or a
    close request arrives: that frame is processed in full (clock, counter,
    movement and cursor events), every frame before it is processed, and no
    frame after it has any effect. *)
Theorem render_loop_stops_at_close :
  forall (F : Type) (FL : Float F) (LM : Libm F)
         (before : list FrameInput) (i : FrameInput) (after : list FrameInput)
         (st : MainState),
    shouldClose st = false ->
    Forall (fun j => closing j = false) before ->
    closing i = true ->
    mainLoop (before ++ i :: after) st =
      mainIteration (fold_left mainIteration before st) i /\
    shouldClose (mainLoop (before ++ i :: after) st) = true.
Proof.
  intros F FL LM before i after st Hst Hbefore Hi.
  assert (E : mainLoop (before ++ i :: after) st =
              mainIteration (fold_left mainIteration before st) i).
  { revert st Hst. induction Hbefore as [|j rest Hj _ IH]; intros st Hst.
    - cbn [app mainLoop fold_left]. rewrite Hst.
      destruct after as [|a rest]; cbn [mainLoop]; [ reflexivity | ].
      now rewrite shouldClose_mainIteration, Hi.
    - cbn [app mainLoop fold_left]. rewrite Hst. apply IH.
      now rewrite shouldClose_mainIteration, Hj, Hst. }
  split; [ exact E | ].
  rewrite E, shouldClose_mainIteration, Hi. reflexivity.
Qed.

Lemma render_loop_idle_position_witness :
  Forall (fun i : FrameInput => forall k, keys i k = false) idle_frames /\
  Forall (fun st => Position (camera st) = mkVec3 (lit32 0 1) (lit32 0 1) (lit32 15 1))
         (mainTrace (LM:=series_libm) idle_frames (mainInit (LM:=series_libm) (lit64 0 1))).
Proof.
  assert (H : Forall (fun i : FrameInput => forall k, keys i k = false) idle_frames)
    by (repeat constructor).
  split; [ exact H | ].
  exact (render_loop_idle_position spec_float ieee series_libm (lit64 0 1) idle_frames H).
Defined.

Lemma render_loop_stops_at_close_witness :
  (shouldClose (mainInit (LM:=series_libm) (lit64 0 1)) = false /\
   Forall (fun j : FrameInput => closing j = false) idle_frames /\
   closing escape_frame = true) /\
  (mainLoop (LM:=series_libm) (idle_frames ++ escape_frame :: idle_frames)
            (mainInit (LM:=series_libm) (lit64 0 1)) =
     mainIteration (LM:=series_libm)
       (fold_left (mainIteration (LM:=series_libm)) idle_frames (mainInit (LM:=series_libm) (lit64 0 1)))
                   escape_frame /\
   shouldClose (mainLoop (LM:=series_libm) (idle_frames ++ escape_frame :: idle_frames)
                         (mainInit (LM:=series_libm) (lit64 0 1))) = true).
Proof.
  assert (H1 : shouldClose (mainInit (LM:=series_libm) (lit64 0 1)) = false)
    by reflexivity.
  assert (H2 : Forall (fun j : FrameInput => closing j = false) idle_frames)
    by (repeat constructor).
  assert (H3 : closing escape_frame = true) by reflexivity.
  split; [ split; [ exact H1 | split; [ exact H2 | exact H3 ] ] | ].
  exact (render_loop_stops_at_close spec_float ieee series_libm idle_frames escape_frame
           idle_frames (mainInit (LM:=series_libm) (lit64 0 1)) H1 H2 H3).
Defined.

(** ** The render loop in IEEE arithmetic *)

Lemma steady_set_Position : forall (c : Camera (F:=spec_float)) p,
  steady c -> steady (set_Position c p).
Proof. intros [] p [A B C]. split; assumption. Qed.

Lemma lit64_zero : lit64 0 1 = S754_zero false.
Proof. vm_compute. reflexivity. Qed.

Lemma SFsub_zero_r : forall x, SFsub 53 1024 x (S754_zero false) = x.
Proof. intros [[]|[]| |[] m e]; reflexivity. Qed.

(** X6.  The pitch bound holds through the whole render loop: from the state
    [main] sets up, whatever the clock reads and whichever keys are down, the
    camera's pitch lies in [-89, 89] in every state the loop reaches, as long
    as the vertical coordinate of every cursor sample is a number. *)
Theorem render_loop_pitch_in_range :
  forall (LM : Libm spec_float) (now : spec_float) (inputs : list FrameInput),
    Forall (fun i => Forall (fun s => finite (snd s) = true) (cursor i)) inputs ->
    Forall (fun st => pitch_in_range (Pitch (camera st)) = true)
           (mainTrace inputs (mainInit now)).
Proof.
  intros LM now inputs Hfin.
  apply Forall_impl with (P := fun st => steady (camera st));
    [ intros st Hst; now destruct Hst | ].
  apply (mainTrace_invariant (fun st => steady (camera st))
           (fun i => Forall (fun s => finite (snd s) = true) (cursor i)));
    [ | | exact Hfin ].
  - intros st i Hst Hi. rewrite camera_mainIteration.
    apply (feed_invariant_on steady (fun s => finite (snd s) = true) cursorCallback
             cursorCallback_steady); [ | exact Hi ].
    rewrite mainMovement_moved. now apply steady_set_Position.
  - cbn [mainInit camera]. apply start_steady.
Qed.

Lemma render_loop_pitch_in_range_witness :
  Forall (fun i : FrameInput => Forall (fun s => finite (snd s) = true) (cursor i))
         idle_frames /\
  Forall (fun st => pitch_in_range (Pitch (camera st)) = true)
         (mainTrace (LM:=series_libm) idle_frames (mainInit (LM:=series_libm) (lit64 0 1))).
Proof.
  assert (H : Forall (fun i : FrameInput =>
                        Forall (fun s => finite (snd s) = true) (cursor i)) idle_frames)
    by (repeat constructor).
  split; [ exact H | ].
  exact (render_loop_pitch_in_range series_libm (lit64 0 1) idle_frames H).
Defined.

(** X7.  The first frame's time step is not a frame's duration: [lastFrame]
    starts at 0 and not at the clock, so on the first iteration [deltaTime]
    is the clock reading itself, for every float64 the clock can return, and
    the movement block scales its step by all the time since GLFW started. *)
Theorem first_frame_deltaTime_is_clock :
  forall (LM : Libm spec_float) (now : spec_float) (i : FrameInput),
    let st := mainIteration (mainInit now) i in
    deltaTime st = now_frame i /\
    camera st =
      feed cursorCallback (cursor i)
        (mainMovement (set_Position NewCamera
                         (mkVec3 (lit32 0 1) (lit32 0 1) (lit32 15 1)))
                      (keys i) (now_frame i)).
Proof.
  intros LM now i st.
  assert (E : f64_sub (now_frame i) (lastFrame (mainInit now)) = now_frame i).
  { cbn [mainInit lastFrame]. rewrite lit64_zero. apply SFsub_zero_r. }
  split.
  - unfold st. cbn [mainIteration deltaTime]. exact E.
  - unfold st. rewrite camera_mainIteration, E. reflexivity.
Qed.

(** X8.  The grid of one frame is centred on the origin: it has 100 quads,
    every coordinate is at most 4.5 in magnitude, and with the quad at
    [(x, y)] the loop also draws the quad at [(-x, -y)]; [float32(col) - 4.5]
    is computed without rounding error. *)
Theorem grid_centred :
  length (gridCells (F:=spec_float)) = 100%nat /\
  Forall (fun c => SFleb (SFabs (fst c)) (lit32 9 2) = true /\
                   SFleb (SFabs (snd c)) (lit32 9 2) = true)
         (gridCells (F:=spec_float)) /\
  Forall (fun c => In (SFopp (fst c), SFopp (snd c)) (gridCells (F:=spec_float)))
         (gridCells (F:=spec_float)) /\
  gridCells (F:=spec_float) =
    flat_map (fun row => map (fun col => (lit32 (2 * Z.of_nat col - 9) 2,
                                          lit32 (2 * Z.of_nat row - 9) 2))
                             (seq 0 10))
             (seq 0 10).
Proof.
  split; [ reflexivity | split; [ | split ] ].
  - apply Forall_forall. intros c Hc.
    assert (B : forallb (fun c => SFleb (SFabs (fst c)) (lit32 9 2) &&
                                  SFleb (SFabs (snd c)) (lit32 9 2))
                        (gridCells (F:=spec_float)) = true)
      by (vm_compute; reflexivity).
    rewrite forallb_forall in B. apply B in Hc.
    now apply andb_prop in Hc.
  - assert (M : map (fun c => (SFopp (fst c), SFopp (snd c))) (gridCells (F:=spec_float))
                = rev gridCells)
      by (vm_compute; reflexivity).
    apply Forall_forall. intros c Hc.
    apply in_rev. rewrite <- M.
    apply (in_map (fun c => (SFopp (fst c), SFopp (snd c)))). exact Hc.
  - vm_compute. reflexivity.
Qed.

(** ** The frame-rate counter between two readings *)

Lemma run_updates_waiting :
  forall (F : Type) (FL : Float F) (times : list F) (fc : FPSCounter),
    Forall (fun t => closes t fc = false) times ->
    (0 <= frameCount fc)%Z ->
    (frameCount fc + Z.of_nat (length times) < 2 ^ 63)%Z ->
    run_updates times fc =
      (map (fun _ => fps fc) times,
       mkFPS (lastUpdate fc) (frameCount fc + Z.of_nat (length times)) (fps fc)).
Proof.
  intros F FL times. induction times as [|t rest IH]; intros fc Hw H0 Hn.
  - cbn [run_updates map length Z.of_nat]. rewrite Z.add_0_r. destruct fc; reflexivity.
  - inversion Hw as [|? ? Ht Hrest]; subst.
    rewrite run_updates_cons.
    unfold closes in Ht. rewrite (Update_waiting t fc Ht). cbn [fst snd].
    cbn [length] in Hn. rewrite Nat2Z.inj_succ in Hn.
    rewrite int_incr_no_wrap by lia.
    rewrite IH; cbn [lastUpdate frameCount fps]; [ | exact Hrest | lia | lia ].
    cbn [fst snd map length]. rewrite Nat2Z.inj_succ.
    do 2 f_equal. lia.
Qed.

(** X9.  Between two readings the counter only counts: over any run of calls
    none of which comes 0.25 s after the window opened, every call returns
    the reading the counter already had, the reading and the window start are
    untouched, and the stored frame count is the number of calls made in the
    window (as long as that number fits an [int]). *)
Theorem waiting_calls_only_count :
  forall (F : Type) (FL : Float F) (times : list F) (fc : FPSCounter),
    Forall (fun t => closes t fc = false) times ->
    (0 <= frameCount fc)%Z ->
    (frameCount fc + Z.of_nat (length times) < 2 ^ 63)%Z ->
    fst (run_updates times fc) = map (fun _ => fps fc) times /\
    lastUpdate (snd (run_updates times fc)) = lastUpdate fc /\
    fps (snd (run_updates times fc)) = fps fc /\
    frameCount (snd (run_updates times fc)) =
      (frameCount fc + Z.of_nat (length times))%Z.
Proof.
  intros F FL times fc Hw H0 Hn.
  rewrite (run_updates_waiting F FL times fc Hw H0 Hn).
  repeat split.
Qed.

Lemma waiting_calls_only_count_witness :
  (Forall (fun t => closes t (NewFPSCounter (lit64 0 1)) = false) (times60 3) /\
   (0 <= frameCount (NewFPSCounter (F:=spec_float) (lit64 0 1)))%Z /\
   (frameCount (NewFPSCounter (F:=spec_float) (lit64 0 1))
    + Z.of_nat (length (times60 3)) < 2 ^ 63)%Z) /\
  (fst (run_updates (times60 3) (NewFPSCounter (lit64 0 1))) =
     map (fun _ => fps (NewFPSCounter (lit64 0 1))) (times60 3) /\
   lastUpdate (snd (run_updates (times60 3) (NewFPSCounter (lit64 0 1)))) =
     lastUpdate (NewFPSCounter (lit64 0 1)) /\
   fps (snd (run_updates (times60 3) (NewFPSCounter (lit64 0 1)))) =
     fps (NewFPSCounter (lit64 0 1)) /\
   frameCount (snd (run_updates (times60 3) (NewFPSCounter (lit64 0 1)))) =
     (frameCount (NewFPSCounter (F:=spec_float) (lit64 0 1))
      + Z.of_nat (length (times60 3)))%Z).
Proof.
  assert (H1 : Forall (fun t => closes t (NewFPSCounter (lit64 0 1)) = false) (times60 3))
    by (repeat (constructor; [ vm_compute; reflexivity | ]); constructor).
  assert (H2 : (0 <= frameCount (NewFPSCounter (F:=spec_float) (lit64 0 1)))%Z)
    by (vm_compute; discriminate).
  assert (H3 : (frameCount (NewFPSCounter (F:=spec_float) (lit64 0 1))
                + Z.of_nat (length (times60 3)) < 2 ^ 63)%Z)
    by (vm_compute; reflexivity).
  split; [ split; [ exact H1 | split; [ exact H2 | exact H3 ] ] | ].
  exact (waiting_calls_only_count spec_float ieee (times60 3)
           (NewFPSCounter (lit64 0 1)) H1 H2 H3).
Defined.

Lemma mainTrace_counter :
  forall (F : Type) (FL : Float F) (LM : Libm F)
         (inputs : list FrameInput) (st : MainState),
    shouldClose st = false ->
    Forall (fun i => closing i = false) inputs ->
    map shownFps (mainTrace inputs st)
      = fst (run_updates (map now_update inputs) (fpsCounter st)) /\
    fpsCounter (fold_left mainIteration inputs st)
      = snd (run_updates (map now_update inputs) (fpsCounter st)).
Proof.
  intros F FL LM inputs. induction inputs as [|i rest IH]; intros st Hst Hopen.
  - split; reflexivity.
  - inversion Hopen as [|? ? Hi Hrest]; subst.
    cbn [mainTrace map fold_left]. rewrite Hst, run_updates_cons. cbn [fst snd map].
    destruct (IH (mainIteration st i)) as (A & B);
      [ now rewrite shouldClose_mainIteration, Hi, Hst | exact Hrest | ].
    split; [ f_equal; exact A | exact B ].
Qed.

(** X15.  The counter sees every frame exactly once: as long as no frame
    closes the window, the numbers the render loop shows in the title are the
    values [Update] returns along the clock readings of the frames, one call
    per frame, and the loop's counter is the counter of that run; keys,
    cursor and camera have no influence on it. *)
Theorem render_loop_updates_counter_once_per_frame :
  forall (F : Type) (FL : Float F) (LM : Libm F) (now : F) (inputs : list FrameInput),
    Forall (fun i => closing i = false) inputs ->
    map shownFps (mainTrace inputs (mainInit now))
      = fst (run_updates (map now_update inputs) (NewFPSCounter now)) /\
    fpsCounter (mainLoop inputs (mainInit now))
      = snd (run_updates (map now_update inputs) (NewFPSCounter now)).
Proof.
  intros F FL LM now inputs Hopen.
  destruct (mainTrace_counter F FL LM inputs (mainInit now) eq_refl Hopen) as (A & B).
  change (fpsCounter (mainInit now)) with (NewFPSCounter now) in A, B.
  split; [ exact A | ].
  rewrite <- B. f_equal. clear A B.
  assert (G : forall st, shouldClose st = false ->
                mainLoop inputs st = fold_left mainIteration inputs st).
  { induction Hopen as [|i rest Hi _ IH]; intros st Hst; cbn [mainLoop fold_left].
    - reflexivity.
    - rewrite Hst. apply IH. now rewrite shouldClose_mainIteration, Hi, Hst. }
  apply G. reflexivity.
Qed.

Lemma render_loop_updates_counter_once_per_frame_witness :
  Forall (fun i : FrameInput => closing i = false) idle_frames /\
  (map shownFps (mainTrace (LM:=series_libm) idle_frames
                   (mainInit (LM:=series_libm) (lit64 0 1)))
     = fst (run_updates (map now_update idle_frames) (NewFPSCounter (lit64 0 1))) /\
   fpsCounter (mainLoop (LM:=series_libm) idle_frames
                 (mainInit (LM:=series_libm) (lit64 0 1)))
     = snd (run_updates (map now_update idle_frames) (NewFPSCounter (lit64 0 1)))).
Proof.
  assert (H : Forall (fun i : FrameInput => closing i = false) idle_frames)
    by (repeat constructor).
  split; [ exact H | ].
  exact (render_loop_updates_counter_once_per_frame spec_float ieee series_libm
           (lit64 0 1) idle_frames H).
Defined.
